(** * Loan calculator: amortization core of [app.js]

    A shallow embedding of the annuity math ([calculateEMI],
    [calculateRemainingMonths]) and of the two schedule walks
    ([generateBaseline], [applyUserChanges]) of [src/app.js], with the
    properties of the design document stated over it; then of the reading
    of the table, the stats bar ([updateStatsBar]), the summary report
    ([generateSummaryReport]) and the amount in words
    ([numberToWordsIndian]), with further properties of the code.

    Number model.  JavaScript numbers are modelled as exact reals ([R]); the
    one non-finite value the code produces on purpose, the [Infinity]
    returned by [calculateRemainingMonths], is modelled by the type [num].
    Month counts are integers ([Z]): every month count of the program comes
    from [parseInt], from the loop counter or from [Math.ceil].  Rounding
    and overflow of IEEE doubles are outside this model; the module
    [Binary64] repeats the annuity math and the walk of [applyUserChanges]
    over binary64, for the places where a claim turns on them.  With non-negative
    rates the code never divides by zero nor takes the logarithm of a
    non-positive number where it divides or takes logarithms
    ([annuity_divisor_nonzero], [inversion_divisors_nonzero]), so that the
    real operations are the ones of the program there.  Date labels
    ([monthLabel]), console diagnostics and DOM rendering carry no financial
    content and are left out; the values read from the form
    ([Number(...) || 0], [parseInt(...) || 0]) are the inputs. *)

From Stdlib Require Import Reals ZArith Lia Lra Bool.
From stdpp Require Import base option list gmap.
From Stdlib Require String Ascii Floats Uint63.
Import String.StringSyntax Ascii.AsciiSyntax.

Open Scope R_scope.

(** ** Comparisons of numbers as booleans *)

Definition Rltb (x y : R) : bool := if Rlt_dec x y then true else false.
Definition Rleb (x y : R) : bool := if Rle_dec x y then true else false.
Definition Reqb (x y : R) : bool := if Req_dec_T x y then true else false.

(** ** [Math.ceil] and the non-finite result *)

(** [Math.ceil x]: the least integer not below [x]. *)
Definition Math_ceil (x : R) : Z := (- Int_part (- x))%Z.

(** The values [calculateRemainingMonths] returns: a real, or [Infinity]. *)
Inductive num : Type :=
| Finite (x : R)
| Infinity.

(** [clamp x lo hi]: [x] brought into the interval from [lo] to [hi]. *)
Definition clamp (x lo hi : R) : R := Rmin (Rmax x lo) hi.

(** ** Annuity math *)

(** [calculateEMI(principal, monthlyRate, months)], app.js lines 25-32.
    [!principal] is true exactly for a zero principal. *)
Definition calculateEMI (principal monthlyRate : R) (months : Z) : R :=
  if (months <=? 0)%Z then 0
  else if Reqb principal 0 || Rleb principal 0 then 0
  else if Reqb monthlyRate 0 then principal / IZR months
  else
    let r := monthlyRate in
    let pow := powerRZ (1 + r) months in
    (principal * r * pow) / (pow - 1).

(** [isFinite(calculateEMI(principal, monthlyRate, months))].  The returns
    of lines 26-28 are finite; the quotient of line 31 is an infinity or NaN
    where its divisor [pow - 1] is zero, and a real number elsewhere.  Over
    the reals the divisor is zero only at the rate -2 with an even number
    of months; over binary64 also where [1 + r] rounds to 1. *)
Definition calculateEMI_isFinite (principal monthlyRate : R) (months : Z)
    : bool :=
  if (months <=? 0)%Z then true
  else if Reqb principal 0 || Rleb principal 0 then true
  else if Reqb monthlyRate 0 then true
  else
    let r := monthlyRate in
    let pow := powerRZ (1 + r) months in
    negb (Reqb (pow - 1) 0).

(** [calculateRemainingMonths(principal, emi, monthlyRate)], lines 38-51. *)
Definition calculateRemainingMonths (principal emi monthlyRate : R) : num :=
  if Rleb principal 0 then Finite 0
  else if Rleb emi 0 then Infinity
  else if Reqb monthlyRate 0 then Finite (IZR (Math_ceil (principal / emi)))
  else
    let monthlyInterest := principal * monthlyRate in
    if Rleb emi (monthlyInterest + 1e-12) then Infinity
    else
      let numerator := ln (emi / (emi - principal * monthlyRate)) in
      let denominator := ln (1 + monthlyRate) in
      Finite (numerator / denominator).

(** ** Schedule rows *)

(** One object of the [rows] / [schedule] arrays (lines 800-810, 1034-1044);
    [roiChange] is [null] ([None]) or the new annual rate. *)
Module ScheduleRow.
Record t : Type := mk {
  monthIndex : Z;
  emi : R;
  interest : R;
  principal : R;
  disbursement : R;
  prepayment : R;
  roiChange : option R;
  balance : R
}.
End ScheduleRow.

(** ** Baseline generator, [generateBaseline] (lines 780-814) *)

Module Baseline.

(** The variables the [for] loop of [generateBaseline] updates. *)
Record Loop : Type := mkLoop {
  rows : list ScheduleRow.t;
  balance : R;
  totalInterest : R
}.

Section Walk.
Variables (P annualRate : R) (n : Z).

Definition monthlyRate : R := annualRate / 12 / 100.
Definition baselineEMI : R := calculateEMI P monthlyRate n.

(** One pass through the loop body for month [i]. *)
Definition month (i : Z) (s : Loop) : Loop :=
  let interest := balance s * monthlyRate in
  let principal := baselineEMI - interest in
  let principal := if Rltb principal 0 then 0 else principal in
  let principal := if Rltb (balance s) principal then balance s else principal in
  let balance' := balance s - principal in
  {| rows := rows s ++
       [ {| ScheduleRow.monthIndex := i;
            ScheduleRow.emi := baselineEMI;
            ScheduleRow.interest := interest;
            ScheduleRow.principal := principal;
            ScheduleRow.disbursement := 0;
            ScheduleRow.prepayment := 0;
            ScheduleRow.roiChange := None;
            ScheduleRow.balance := Rmax balance' 0 |} ];
     balance := balance';
     totalInterest := totalInterest s + interest |}.

(** [for (let i = 1; i <= n; i++) { ...; if (balance <= 0.0001) break; }];
    [fuel] bounds the number of passes. *)
Fixpoint for_loop (fuel : nat) (i : Z) (s : Loop) : Loop :=
  match fuel with
  | O => s
  | S fuel' =>
      if (i <=? n)%Z then
        let s' := month i s in
        if Rleb (balance s') 0.0001 then s' else for_loop fuel' (i + 1) s'
      else s
  end.

Definition generateBaseline : Loop :=
  for_loop (Z.to_nat n) 1
    {| rows := []; balance := P; totalInterest := 0 |}.
End Walk.

End Baseline.

(** ** Core apply logic, [applyUserChanges] (lines 883-1099) *)

Definition SAFE_MONTH_CAP : Z := 5000.

(** The variables the [for] loop of [applyUserChanges] updates. *)
Record Loop : Type := mkLoop {
  schedule : list ScheduleRow.t;
  balance : R;
  monthlyRate : R;
  currentEMI : R;
  totalInterest : R;
  totalDisbursements : R;
  targetRemainingMonths : Z
}.

(** What the function shows after the walk (lines 1060-1090): the schedule,
    the summed interest, the disbursement total and the completion month. *)
Record Report : Type := mkReport {
  currentSchedule : list ScheduleRow.t;
  newTotalInterest : R;
  shownTotalDisbursements : R;
  completionMonthIndex : nat
}.

(** What a month adds to [totalDisbursements] (line 963), read off its row:
    the entered disbursement when it exceeds the prepayment, else nothing. *)
Definition countedDisbursement (row : ScheduleRow.t) : R :=
  if Rltb 0 (ScheduleRow.disbursement row - ScheduleRow.prepayment row)
  then ScheduleRow.disbursement row else 0.

Definition sumOver (f : ScheduleRow.t -> R) (rows : list ScheduleRow.t) : R :=
  foldr (fun row acc => f row + acc) 0 rows.

Section ApplyUserChanges.
(** The values read from the form: loan amount, starting annual rate,
    tenure, and the three maps filled from the table inputs, keyed by the
    [data-idx] attribute of the input. *)
Variables (P roiStart : R) (originalTenure : Z).
Variables (disbursementsMap prepaymentsMap roiMap : gmap Z R).

Definition initialMonthlyRate : R := roiStart / 12 / 100.

Definition initialEMI : R :=
  calculateEMI P initialMonthlyRate (Z.max 1 originalTenure).

Definition initialLoop : Loop :=
  {| schedule := [];
     balance := P;
     monthlyRate := initialMonthlyRate;
     currentEMI := initialEMI;
     totalInterest := 0;
     totalDisbursements := 0;
     targetRemainingMonths := originalTenure |}.

(** The tenure target after a re-derivation at month [monthCount],
    [if (isFinite(x)) targetRemainingMonths = monthCount + Math.ceil(x)]
    (lines 1005-1007, 1015-1017, 1028-1030): moved when
    [calculateRemainingMonths] is finite, held otherwise. *)
Definition retarget (monthCount : Z) (months : num) (target : Z) : Z :=
  match months with
  | Finite m => (monthCount + Math_ceil m)%Z
  | Infinity => target
  end.

(** One pass through the loop body (lines 935-1057).  The result is the
    updated variables and whether the safety check left the loop. *)
Definition month (monthCount : Z) (s : Loop) : Loop * bool :=
  let idxForInputs := (monthCount - 1)%Z in
  (* 1. interest for the month *)
  let interest := balance s * monthlyRate s in
  (* 2. principal portion of the EMI *)
  let principal := currentEMI s - interest in
  let principal := if Rltb principal 0 then 0 else principal in
  let principal := if Rltb (balance s) principal then balance s else principal in
  (* 3. EMI principal reduction *)
  let balance1 := balance s - principal in
  (* 4. net disbursement after prepayment *)
  let prepay := default 0 (prepaymentsMap !! idxForInputs) in
  let disbursement := default 0 (disbursementsMap !! idxForInputs) in
  let netDisbursement := disbursement - prepay in
  let balance2 :=
    if Rltb 0 netDisbursement then balance1 + netDisbursement
    else if Rltb netDisbursement 0 then Rmax 0 (balance1 + netDisbursement)
    else balance1 in
  let totalDisbursements' :=
    if Rltb 0 netDisbursement then totalDisbursements s + disbursement
    else totalDisbursements s in
  let totalInterest' := totalInterest s + interest in
  (* 6. rate change *)
  let oldMonthlyRate := monthlyRate s in
  let roiChanged := bool_decide (is_Some (roiMap !! idxForInputs)) in
  let monthlyRate' :=
    match roiMap !! idxForInputs with
    | Some newAnnual => newAnnual / 12 / 100
    | None => monthlyRate s
    end in
  (* 7. EMI / tenure adjustments *)
  let remainingMonths := (targetRemainingMonths s - monthCount)%Z in
  let newEMI := calculateEMI balance2 oldMonthlyRate remainingMonths in
  let emiChanged :=
    Rltb 0 netDisbursement && Rltb 0.0001 balance2
    && (0 <? remainingMonths)%Z
    && (Rltb 0 newEMI
        && calculateEMI_isFinite balance2 oldMonthlyRate remainingMonths) in
  let currentEMI' := if emiChanged then newEMI else currentEMI s in
  let target1 :=
    if roiChanged then
      if emiChanged then
        retarget monthCount
          (calculateRemainingMonths balance2 currentEMI' monthlyRate')
          (targetRemainingMonths s)
      else
        retarget monthCount
          (calculateRemainingMonths balance2 currentEMI' monthlyRate')
          (targetRemainingMonths s)
    else targetRemainingMonths s in
  let target2 :=
    if Rltb netDisbursement 0 && negb roiChanged && negb emiChanged then
      retarget monthCount
        (calculateRemainingMonths balance2 currentEMI' monthlyRate')
        target1
    else target1 in
  let row :=
    {| ScheduleRow.monthIndex := monthCount;
       ScheduleRow.emi := currentEMI';
       ScheduleRow.interest := interest;
       ScheduleRow.principal := principal;
       ScheduleRow.disbursement := disbursement;
       ScheduleRow.prepayment := prepay;
       ScheduleRow.roiChange := roiMap !! idxForInputs;
       ScheduleRow.balance := Rmax balance2 0 |} in
  (* safety check *)
  let stop :=
    Rltb (Rabs principal) 1e-12 && Reqb prepay 0 && Reqb disbursement 0
    && Rltb 0.0001 balance2 in
  ({| schedule := schedule s ++ [row];
      balance := balance2;
      monthlyRate := monthlyRate';
      currentEMI := currentEMI';
      totalInterest := totalInterest';
      totalDisbursements := totalDisbursements';
      targetRemainingMonths := target2 |}, stop).

(** The loop test [monthCount <= SAFE_MONTH_CAP && balance > 0.0001]. *)
Definition guard (monthCount : Z) (s : Loop) : bool :=
  (monthCount <=? SAFE_MONTH_CAP)%Z && Rltb 0.0001 (balance s).

(** The [for] loop from [monthCount]; [fuel] bounds the number of passes. *)
Fixpoint for_loop (fuel : nat) (monthCount : Z) (s : Loop) : Loop :=
  match fuel with
  | O => s
  | S fuel' =>
      if guard monthCount s then
        let (s', stop) := month monthCount s in
        if stop then s' else for_loop fuel' (monthCount + 1) s'
      else s
  end.

(** The walk of [applyUserChanges]: the counter runs from 1 to at most
    [SAFE_MONTH_CAP], so that many passes are enough
    (see [for_loop_fuel]). *)
Definition walk : Loop := for_loop (Z.to_nat SAFE_MONTH_CAP) 1 initialLoop.

Definition applyUserChanges : Report :=
  let s := walk in
  {| currentSchedule := schedule s;
     newTotalInterest :=
       foldl (fun acc r => acc + ScheduleRow.interest r) 0 (schedule s);
     shownTotalDisbursements := totalDisbursements s;
     completionMonthIndex := length (schedule s) |}.

(** *** The walk as a step relation *)

(** [Head monthCount s]: the loop test is reached with counter
    [monthCount] and variables [s]. *)
Inductive Head : Z -> Loop -> Prop :=
| Head_first : Head 1 initialLoop
| Head_next (monthCount : Z) (s s' : Loop) :
    Head monthCount s ->
    guard monthCount s = true ->
    month monthCount s = (s', false) ->
    Head (monthCount + 1) s'.

(** [Runs monthCount s]: the body is entered with these values. *)
Definition Runs (monthCount : Z) (s : Loop) : Prop :=
  Head monthCount s /\ guard monthCount s = true.

(** The two ways out of the loop: the test fails, or the safety check
    breaks. *)
Inductive Final : Loop -> Prop :=
| Final_test (monthCount : Z) (s : Loop) :
    Head monthCount s -> guard monthCount s = false -> Final s
| Final_break (monthCount : Z) (s s' : Loop) :
    Runs monthCount s -> month monthCount s = (s', true) -> Final s'.

(** The monthly rate in effect when month [i + 1] accrues interest: the
    latest rate entered at an index below [i], else the starting rate. *)
Fixpoint rateInEffect (i : nat) : R :=
  match i with
  | O => initialMonthlyRate
  | S j =>
      match roiMap !! Z.of_nat j with
      | Some newAnnual => newAnnual / 12 / 100
      | None => rateInEffect j
      end
  end.

(** [Emitted rows i row]: row [i] of [rows] was appended by the pass of
    month [i + 1], entered with the rows before it. *)
Definition Emitted (rows : list ScheduleRow.t) (i : nat) (row : ScheduleRow.t) : Prop :=
  exists (s0 s1 : Loop) (stop : bool),
    Runs (Z.of_nat i + 1) s0
    /\ month (Z.of_nat i + 1) s0 = (s1, stop)
    /\ schedule s0 = take i rows
    /\ schedule s1 = take i rows ++ [row].

(** The balance month [i + 1] opens with, read off a schedule: the loan
    amount, or the closing balance of the row before. *)
Definition openingBalance (rows : list ScheduleRow.t) (i : nat) : R :=
  match i with
  | O => P
  | S j => from_option ScheduleRow.balance 0 (rows !! j)
  end.

(** The EMI month [i + 1] opens with: the initial EMI, or the EMI of the
    row before. *)
Definition emiInEffect (rows : list ScheduleRow.t) (i : nat) : R :=
  match i with
  | O => initialEMI
  | S j => from_option ScheduleRow.emi 0 (rows !! j)
  end.

End ApplyUserChanges.

(** The sum of all values of an override map. *)
Definition sumOfValues (m : gmap Z R) : R :=
  map_fold (fun _ v acc => v + acc) 0 m.

(** ** Sample inputs

    A loan of 1000 at 0% over 2 months (EMI 500), with different table
    entries. *)
Module Sample.
(** 500 disbursed at table index 1, the second and last planned month. *)
Definition lateDisbursement : gmap Z R := {[ 1%Z := 500 ]}.
(** 100 disbursed and 2000 prepaid at table index 0, the first month. *)
Definition smallDisbursement : gmap Z R := {[ 0%Z := 100 ]}.
Definition largePrepayment : gmap Z R := {[ 0%Z := 2000 ]}.

Definition start : Loop := mkLoop [] 1000 0 500 0 0 2.

(** The rows and states of the walk with [lateDisbursement]. *)
Definition row1 : ScheduleRow.t := ScheduleRow.mk 1 500 0 500 0 0 None 500.
Definition row2 : ScheduleRow.t := ScheduleRow.mk 2 500 0 500 500 0 None 500.
Definition row3 : ScheduleRow.t := ScheduleRow.mk 3 500 0 500 0 0 None 0.
Definition after1 : Loop := mkLoop [row1] 500 0 500 0 0 2.
Definition after2 : Loop := mkLoop [row1; row2] 500 0 500 0 500 2.
Definition after3 : Loop := mkLoop [row1; row2; row3] 0 0 500 0 500 2.

(** The row and state of the walk with [smallDisbursement] and
    [largePrepayment]. *)
Definition paidOff : ScheduleRow.t := ScheduleRow.mk 1 500 0 500 100 2000 None 0.
Definition afterPaidOff : Loop := mkLoop [paidOff] 0 0 500 0 0 1.

(** The rate raised to 12% a year at table index 0. *)
Definition rateRaised : gmap Z R := {[ 0%Z := 12 ]}.
(** The row and state of the walk with [smallDisbursement] and
    [rateRaised]: the EMI absorbs the disbursement, the tenure target the
    rate. *)
Definition raisedRow : ScheduleRow.t :=
  ScheduleRow.mk 1 600 0 500 100 0 (Some 12) 600.
Definition afterRaised : Loop := mkLoop [raisedRow] 600 (12 / 12 / 100) 600 0 100 3.

(** The second and last row of the loan without table entries. *)
Definition plainRow2 : ScheduleRow.t := ScheduleRow.mk 2 500 0 500 0 0 None 0.
Definition afterPlain2 : Loop := mkLoop [Sample.row1; plainRow2] 0 0 500 0 0 2.

(** A loan of 100 at 0% with tenure 0, no table entries. *)
Definition noTenureRow : ScheduleRow.t := ScheduleRow.mk 1 100 0 100 0 0 None 0.
Definition afterNoTenure : Loop := mkLoop [noTenureRow] 0 0 100 0 0 0.

(** The baseline of a loan of -100 at 0% over 1 month. *)
Definition negativeRow : ScheduleRow.t := ScheduleRow.mk 1 0 0 (-100) 0 0 None 0.
End Sample.

(** ** Further definitions: ledger, stats bar, summary report *)

(** The balance a schedule accounts for: the loan, less the principal paid,
    plus the disbursements and less the prepayments entered. *)
Definition ledger (P : R) (rows : list ScheduleRow.t) : R :=
  P - sumOver ScheduleRow.principal rows
  + sumOver ScheduleRow.disbursement rows
  - sumOver ScheduleRow.prepayment rows.

(** Two lists that agree wherever both have an entry. *)
Definition agree (la lb : list ScheduleRow.t) : Prop :=
  forall (k : nat) (ra rb : ScheduleRow.t),
    la !! k = Some ra -> lb !! k = Some rb -> ra = rb.

(** ** Stats bar, [updateStatsBar] (lines 1230-1258) *)

(** The four numbers the stats bar shows, before formatting. *)
Record StatsBar : Type := mkStatsBar {
  monthlyEMI : R;
  currentRoi : R;
  currentOutstanding : R;
  monthsRemaining : nat
}.

(** The scan [for (let i = length - 1; i >= 0; i--)] of lines 1244-1249 over
    the rows from the last to the first: the first [roiChange] that is not
    [null], else the starting rate. *)
Fixpoint latestRoiChange (rowsFromLast : list ScheduleRow.t) (currentROI : R)
    : R :=
  match rowsFromLast with
  | [] => currentROI
  | row :: earlier =>
      match ScheduleRow.roiChange row with
      | Some v => v
      | None => latestRoiChange earlier currentROI
      end
  end.

Definition updateStatsBar (roiStart : R) (currentSchedule : list ScheduleRow.t)
    : StatsBar :=
  match currentSchedule with
  | [] => mkStatsBar 0 0 0 0
  | firstMonth :: _ =>
      let lastMonth := List.last currentSchedule firstMonth in
      let currentROI := latestRoiChange (reverse currentSchedule) roiStart in
      {| monthlyEMI := ScheduleRow.emi lastMonth;
         currentRoi := currentROI;
         currentOutstanding := ScheduleRow.balance firstMonth;
         monthsRemaining := length currentSchedule |}
  end.

(** ** Summary report, [generateSummaryReport] (lines 1505-1563) *)

(** The numbers of the report, before formatting. *)
Record SummaryReport : Type := mkSummaryReport {
  actualCompletion : nat;
  totalInterestPaid : R;
  reportTotalDisbursements : R;
  totalPrepayments : R;
  tenureChange : Z;
  extended : bool
}.

(** [None] when there is no schedule (the function alerts and returns). *)
Definition generateSummaryReport (tenure : Z)
    (currentSchedule : list ScheduleRow.t) : option SummaryReport :=
  match currentSchedule with
  | [] => None
  | _ :: _ =>
      Some
        {| actualCompletion := length currentSchedule;
           totalInterestPaid :=
             foldl (fun s r => s + ScheduleRow.interest r) 0 currentSchedule;
           reportTotalDisbursements :=
             foldl (fun s r => s + ScheduleRow.disbursement r) 0
               currentSchedule;
           totalPrepayments :=
             foldl (fun s r => s + ScheduleRow.prepayment r) 0
               currentSchedule;
           tenureChange := (Z.of_nat (length currentSchedule) - tenure)%Z;
           extended := (tenure <? Z.of_nat (length currentSchedule))%Z |}
  end.

(** ** Reading the table, [applyUserChanges] lines 889-911 *)

(** One pass of the [forEach] over the disbursement (or prepayment) inputs:
    [idx] is the [data-idx] of the input, [v] its value as
    [Number(el.value) || 0]. *)
Definition setAmount (m : gmap Z R) (input : Z * R) : gmap Z R :=
  let idx := input.1 in
  let v := input.2 in
  if Rltb 0 v then <[idx := v]> m else m.

Definition readAmounts (inputs : list (Z * R)) : gmap Z R :=
  foldl setAmount ∅ inputs.

(** One pass of the [forEach] over the rate inputs: the value is [None] for
    an empty field and for a text that is not a number. *)
Definition setRate (m : gmap Z R) (input : Z * option R) : gmap Z R :=
  let idx := input.1 in
  match input.2 with
  | Some v => if Rleb 0 v then <[idx := v]> m else m
  | None => m
  end.

Definition readRates (inputs : list (Z * option R)) : gmap Z R :=
  foldl setRate ∅ inputs.

(** [applyUserChanges] on the values of the form and of the table. *)
Definition applyUserChangesFromTable (P roiStart : R) (originalTenure : Z)
    (disbursementInputs prepayInputs : list (Z * R))
    (roiInputs : list (Z * option R)) : Report :=
  applyUserChanges P roiStart originalTenure
    (readAmounts disbursementInputs) (readAmounts prepayInputs)
    (readRates roiInputs).

(** ** Amount in words, [numberToWordsIndian] (lines 1148-1215)

    The amount is modelled as a natural number ([N]); strings are the
    strings of the standard library. *)
Module Words.
Local Open Scope string_scope.

(** String concatenation, the [+] of the source. *)
Local Notation "x ^+ y" := (String.append x y)
  (at level 50, left associativity).

(** The tables [a] and [b] of the source. *)
Definition a : list String.string :=
  [String.EmptyString; "One"; "Two"; "Three"; "Four"; "Five"; "Six"; "Seven";
   "Eight"; "Nine"; "Ten"; "Eleven"; "Twelve"; "Thirteen"; "Fourteen";
   "Fifteen"; "Sixteen"; "Seventeen"; "Eighteen"; "Nineteen"].

Definition b : list String.string :=
  [String.EmptyString; String.EmptyString; "Twenty"; "Thirty"; "Forty"; "Fifty"; "Sixty";
   "Seventy"; "Eighty"; "Ninety"].

(** [l[n]] for an index within the table. *)
Definition item (l : list String.string) (n : N) : String.string :=
  nth (N.to_nat n) l String.EmptyString.

(** [inWords] on an argument below 100: its first two branches. *)
Definition inWordsBelow100 (n : N) : String.string :=
  if (n <? 20)%N then item a n
  else
    item b (n / 10)
    ^+ (if (n mod 10 =? 0)%N then String.EmptyString
         else " " ^+ item a (n mod 10)).

(** [inWords]; its only recursive call, [inWords(n % 100)], has an argument
    below 100 and is [inWordsBelow100]. *)
Definition inWords (n : N) : String.string :=
  if (n <? 20)%N then item a n
  else if (n <? 100)%N then
    item b (n / 10)
    ^+ (if (n mod 10 =? 0)%N then String.EmptyString
         else " " ^+ item a (n mod 10))
  else if (n <? 1000)%N then
    item a (n / 100) ^+ " Hundred"
    ^+ (if (n mod 100 =? 0)%N then String.EmptyString
         else " " ^+ inWordsBelow100 (n mod 100))
  else String.EmptyString.

(** White space as [String.prototype.trim] sees it, among the characters of
    one byte: tab, line feed, vertical tab, form feed, carriage return,
    space. *)
Definition isWhiteSpace (c : Ascii.ascii) : bool :=
  let n := Ascii.nat_of_ascii c in
  ((9 <=? n)%nat && (n <=? 13)%nat) || (n =? 32)%nat.

Fixpoint trimStart (s : String.string) : String.string :=
  match s with
  | String.EmptyString => String.EmptyString
  | String.String c rest => if isWhiteSpace c then trimStart rest else s
  end.

Fixpoint trimEnd (s : String.string) : String.string :=
  match s with
  | String.EmptyString => String.EmptyString
  | String.String c rest =>
      match trimEnd rest with
      | String.EmptyString =>
          if isWhiteSpace c then String.EmptyString else String.String c String.EmptyString
      | kept => String.String c kept
      end
  end.

Definition trim (s : String.string) : String.string := trimEnd (trimStart s).

Definition numberToWordsIndian (num : N) : String.string :=
  if (num =? 0)%N then "Zero"
  else
    let str := String.EmptyString in
    let crore := (num / 10000000)%N in
    let num := (num mod 10000000)%N in
    let lakh := (num / 100000)%N in
    let num := (num mod 100000)%N in
    let thousand := (num / 1000)%N in
    let num := (num mod 1000)%N in
    let hundred := (num / 100)%N in
    let num := (num mod 100)%N in
    let str :=
      if (crore =? 0)%N then str
      else str ^+ (inWords crore ^+ " Crore ") in
    let str :=
      if (lakh =? 0)%N then str
      else str ^+ (inWords lakh ^+ " Lakh ") in
    let str :=
      if (thousand =? 0)%N then str
      else str ^+ (inWords thousand ^+ " Thousand ") in
    let str :=
      if (hundred =? 0)%N then str
      else str ^+ (inWords hundred ^+ " Hundred ") in
    let str :=
      if (0 <? num)%N then str ^+ (inWords num ^+ " ") else str in
    trim str.

(** *** Reading the words back *)

(** The words of a string: its maximal runs of characters that are not
    white space. *)
Fixpoint tokensFrom (s : String.string) (word : String.string) : list String.string :=
  match s with
  | String.EmptyString =>
      match word with String.EmptyString => [] | _ => [word] end
  | String.String c rest =>
      if isWhiteSpace c then
        match word with
        | String.EmptyString => tokensFrom rest String.EmptyString
        | _ => word :: tokensFrom rest String.EmptyString
        end
      else tokensFrom rest (word ^+ String.String c String.EmptyString)
  end.

Definition tokens (s : String.string) : list String.string := tokensFrom s String.EmptyString.

Fixpoint indexOf (w : String.string) (l : list String.string) (i : N) : option N :=
  match l with
  | [] => None
  | x :: rest => if String.eqb w x then Some i else indexOf w rest (i + 1)%N
  end.

(** The number a word of [a] or [b] stands for. *)
Definition wordValue (w : String.string) : option N :=
  match indexOf w (tail a) 1 with
  | Some v => Some v
  | None =>
      match indexOf w (tail (tail b)) 2 with
      | Some t => Some (t * 10)%N
      | None => None
      end
  end.

(** Reads an amount in words: number words add up, [Hundred] multiplies
    what was read since the last unit, and [Thousand], [Lakh], [Crore]
    close a group. *)
Fixpoint readWords (ws : list String.string) (total current : N) : option N :=
  match ws with
  | [] => Some (total + current)%N
  | w :: rest =>
      if String.eqb w "Zero" then readWords rest total current
      else if String.eqb w "Hundred" then
        readWords rest total (current * 100)%N
      else if String.eqb w "Thousand" then
        readWords rest (total + current * 1000)%N 0%N
      else if String.eqb w "Lakh" then
        readWords rest (total + current * 100000)%N 0%N
      else if String.eqb w "Crore" then
        readWords rest (total + current * 10000000)%N 0%N
      else
        match wordValue w with
        | Some v => readWords rest total (current + v)%N
        | None => None
        end
  end.

Definition readAmount (s : String.string) : option N := readWords (tokens s) 0 0.

(** The words of one group: number words and [Hundred] only. *)
Fixpoint readGroup (ws : list String.string) (current : N) : option N :=
  match ws with
  | [] => Some current
  | w :: rest =>
      if String.eqb w "Zero" || String.eqb w "Thousand"
         || String.eqb w "Lakh" || String.eqb w "Crore" then None
      else if String.eqb w "Hundred" then readGroup rest (current * 100)%N
      else
        match wordValue w with
        | Some v => readGroup rest (current + v)%N
        | None => None
        end
  end.

Fixpoint eqTokens (l1 l2 : list String.string) : bool :=
  match l1, l2 with
  | [], [] => true
  | x :: r1, y :: r2 => String.eqb x y && eqTokens r1 r2
  | _, _ => false
  end.

(** The last two steps of [numberToWordsIndian] on an amount below 1000. *)
Definition lastGroup (v : N) : String.string :=
  let hundred := (v / 100)%N in
  let num := (v mod 100)%N in
  (if (hundred =? 0)%N then String.EmptyString
   else inWords hundred ^+ " Hundred ")
  ^+ (if (0 <? num)%N then inWords num ^+ " " else String.EmptyString).

Definition checkGroup (v : N) : bool :=
  match readGroup (tokens (inWords v)) 0 with
  | Some k => (k =? v)%N
  | None => false
  end
  && eqTokens (tokens (lastGroup v)) (tokens (inWords v)).

(** A string that is empty or ends with a space. *)
Definition closedString (s : String.string) : Prop :=
  s = String.EmptyString
  \/ exists s' : String.string, s = String.append s' " ".

End Words.

(** ** The same code over binary64

    The numbers of the program are IEEE 754 binary64 values.  This module
    repeats [calculateEMI], [calculateRemainingMonths] and the walk of
    [applyUserChanges] over the primitive floats of Rocq, which are these
    values with their rounding, infinities and NaN.  [Math.pow] and
    [Math.log] are approximations the language leaves to the engine: they
    are parameters here, and each statement names what it needs of them.
    Month counts are integers, as above (exact as numbers below 2^53). *)
Module Binary64.
Import PrimFloat SpecFloat FloatOps.
Local Set Warnings "-inexact-float".
Local Open Scope float_scope.

(** An integer as a number. *)
Definition of_Z (z : Z) : float :=
  if (z <? 0)%Z then - of_uint63 (Uint63.of_Z (- z))
  else of_uint63 (Uint63.of_Z z).

(** The least integer not below a finite [x]. *)
Definition ceilZ (x : float) : Z :=
  match Prim2SF x with
  | S754_finite s m e =>
      let v := if s then Z.neg m else Z.pos m in
      if (0 <=? e)%Z then (v * 2 ^ e)%Z else (- ((- v) / 2 ^ (- e)))%Z
  | _ => 0%Z
  end.

(** [Math.ceil(x)]; a finite [x] from 2^52 on is an integer.  The sign of a
    zero result is not kept. *)
Definition Math_ceil (x : float) : float :=
  if is_finite x && (abs x <? 0x1p52) then of_Z (ceilZ x) else x.

(** [Math.max(x, y)]. *)
Definition Math_max (x y : float) : float :=
  if is_nan x || is_nan y then nan
  else if x <? y then y
  else if y <? x then x
  else if x =? 0 then x + y
  else x.

(** [v || 0] for the value of [map.get(idx)]. *)
Definition orZero (v : option float) : float :=
  match v with
  | Some x => if is_nan x || (x =? 0) then 0 else x
  | None => 0
  end.

(** The real number a finite binary64 value stands for. *)
Definition toR (x : float) : R :=
  match Prim2SF x with
  | S754_finite s m e => (IZR (if s then Z.neg m else Z.pos m) * powerRZ 2 e)%R
  | _ => 0%R
  end.

(** A power by repeated multiplication, for integer exponents from 0 on. *)
Definition repeatedProduct (x : float) (n : Z) : float :=
  Z.iter n (fun acc => acc * x) 1.

Module ScheduleRow.
Record t : Type := mk {
  monthIndex : Z;
  emi : float;
  interest : float;
  principal : float;
  disbursement : float;
  prepayment : float;
  roiChange : option float;
  balance : float
}.
End ScheduleRow.

Record Loop : Type := mkLoop {
  schedule : list ScheduleRow.t;
  balance : float;
  monthlyRate : float;
  currentEMI : float;
  totalInterest : float;
  totalDisbursements : float;
  targetRemainingMonths : Z
}.

Section Library.
(** [Math.pow] at an integer exponent, and [Math.log]. *)
Variable Math_pow : float -> Z -> float.
Variable Math_log : float -> float.

(** [calculateEMI], lines 25-32. *)
Definition calculateEMI (principal monthlyRate : float) (months : Z) : float :=
  if (months <=? 0)%Z then 0
  else if (is_nan principal || (principal =? 0)) || (principal <=? 0) then 0
  else if monthlyRate =? 0 then principal / of_Z months
  else
    let r := monthlyRate in
    let pow := Math_pow (1 + r) months in
    (principal * r * pow) / (pow - 1).

(** [calculateRemainingMonths], lines 38-51. *)
Definition calculateRemainingMonths (principal emi monthlyRate : float)
    : float :=
  if principal <=? 0 then 0
  else if emi <=? 0 then infinity
  else if monthlyRate =? 0 then Math_ceil (principal / emi)
  else
    let monthlyInterest := principal * monthlyRate in
    if emi <=? monthlyInterest + 1e-12 then infinity
    else
      let numerator := Math_log (emi / (emi - principal * monthlyRate)) in
      let denominator := Math_log (1 + monthlyRate) in
      numerator / denominator.

Section ApplyUserChanges.
Variables (P roiStart : float) (originalTenure : Z).
Variables (disbursementsMap prepaymentsMap roiMap : gmap Z float).

Definition initialMonthlyRate : float := roiStart / 12 / 100.

Definition initialEMI : float :=
  calculateEMI P initialMonthlyRate (Z.max 1 originalTenure).

Definition initialLoop : Loop :=
  {| schedule := [];
     balance := P;
     monthlyRate := initialMonthlyRate;
     currentEMI := initialEMI;
     totalInterest := 0;
     totalDisbursements := 0;
     targetRemainingMonths := originalTenure |}.

(** [if (isFinite(x)) targetRemainingMonths = monthCount + Math.ceil(x)]. *)
Definition retarget (monthCount : Z) (months : float) (target : Z) : Z :=
  if is_finite months then (monthCount + ceilZ months)%Z else target.

(** One pass through the loop body (lines 935-1057). *)
Definition month (monthCount : Z) (s : Loop) : Loop * bool :=
  let idxForInputs := (monthCount - 1)%Z in
  let interest := balance s * monthlyRate s in
  let principal := currentEMI s - interest in
  let principal := if principal <? 0 then 0 else principal in
  let principal := if balance s <? principal then balance s else principal in
  let balance1 := balance s - principal in
  let prepay := orZero (prepaymentsMap !! idxForInputs) in
  let disbursement := orZero (disbursementsMap !! idxForInputs) in
  let netDisbursement := disbursement - prepay in
  let balance2 :=
    if 0 <? netDisbursement then balance1 + netDisbursement
    else if netDisbursement <? 0 then Math_max 0 (balance1 + netDisbursement)
    else balance1 in
  let totalDisbursements' :=
    if 0 <? netDisbursement then totalDisbursements s + disbursement
    else totalDisbursements s in
  let totalInterest' := totalInterest s + interest in
  let oldMonthlyRate := monthlyRate s in
  let roiChanged := bool_decide (is_Some (roiMap !! idxForInputs)) in
  let monthlyRate' :=
    match roiMap !! idxForInputs with
    | Some newAnnual => newAnnual / 12 / 100
    | None => monthlyRate s
    end in
  (* the EMI that replaces [currentEMI], if one does *)
  let replaced : option float :=
    if (0 <? netDisbursement) && (0.0001 <? balance2) then
      let remainingMonths := (targetRemainingMonths s - monthCount)%Z in
      if (0 <? remainingMonths)%Z then
        let newEMI := calculateEMI balance2 oldMonthlyRate remainingMonths in
        if (0 <? newEMI) && is_finite newEMI then Some newEMI else None
      else None
    else None in
  let emiChanged := bool_decide (is_Some replaced) in
  let currentEMI' := default (currentEMI s) replaced in
  let target1 :=
    if roiChanged then
      retarget monthCount
        (calculateRemainingMonths balance2 currentEMI' monthlyRate')
        (targetRemainingMonths s)
    else targetRemainingMonths s in
  let target2 :=
    if (netDisbursement <? 0) && negb roiChanged && negb emiChanged then
      retarget monthCount
        (calculateRemainingMonths balance2 currentEMI' monthlyRate')
        target1
    else target1 in
  let row :=
    {| ScheduleRow.monthIndex := monthCount;
       ScheduleRow.emi := currentEMI';
       ScheduleRow.interest := interest;
       ScheduleRow.principal := principal;
       ScheduleRow.disbursement := disbursement;
       ScheduleRow.prepayment := prepay;
       ScheduleRow.roiChange := roiMap !! idxForInputs;
       ScheduleRow.balance := Math_max balance2 0 |} in
  let stop :=
    (abs principal <? 1e-12) && (prepay =? 0) && (disbursement =? 0)
    && (0.0001 <? balance2) in
  ({| schedule := schedule s ++ [row];
      balance := balance2;
      monthlyRate := monthlyRate';
      currentEMI := currentEMI';
      totalInterest := totalInterest';
      totalDisbursements := totalDisbursements';
      targetRemainingMonths := target2 |}, stop).

(** The loop test [monthCount <= SAFE_MONTH_CAP && balance > 0.0001]. *)
Definition guard (monthCount : Z) (s : Loop) : bool :=
  (monthCount <=? SAFE_MONTH_CAP)%Z && (0.0001 <? balance s).

(** The [for] loop from [monthCount]; [fuel] bounds the number of passes. *)
Fixpoint for_loop (fuel : nat) (monthCount : Z) (s : Loop) : Loop :=
  match fuel with
  | O => s
  | S fuel' =>
      if guard monthCount s then
        let (s', stop) := month monthCount s in
        if stop then s' else for_loop fuel' (monthCount + 1) s'
      else s
  end.

Definition walk : Loop := for_loop (Z.to_nat SAFE_MONTH_CAP) 1 initialLoop.

(** The schedule [applyUserChanges] leaves in [currentSchedule]. *)
Definition currentSchedule : list ScheduleRow.t := schedule walk.
End ApplyUserChanges.
End Library.
End Binary64.

(** * Properties *)

(** ** Comparisons and rounding *)

Lemma Rltb_spec (x y : R) : reflect (x < y) (Rltb x y).
Proof. unfold Rltb. destruct (Rlt_dec x y); constructor; assumption. Qed.

Lemma Rleb_spec (x y : R) : reflect (x <= y) (Rleb x y).
Proof. unfold Rleb. destruct (Rle_dec x y); constructor; assumption. Qed.

Lemma Reqb_spec (x y : R) : reflect (x = y) (Reqb x y).
Proof. unfold Reqb. destruct (Req_dec_T x y); constructor; assumption. Qed.

Lemma Rltb_true (x y : R) : x < y -> Rltb x y = true.
Proof. intros H. destruct (Rltb_spec x y); [reflexivity | contradiction]. Qed.

Lemma Rltb_false (x y : R) : y <= x -> Rltb x y = false.
Proof. intros H. destruct (Rltb_spec x y); [lra | reflexivity]. Qed.

Lemma Rleb_true (x y : R) : x <= y -> Rleb x y = true.
Proof. intros H. destruct (Rleb_spec x y); [reflexivity | contradiction]. Qed.

Lemma Rleb_false (x y : R) : y < x -> Rleb x y = false.
Proof. intros H. destruct (Rleb_spec x y); [lra | reflexivity]. Qed.

Lemma Reqb_true (x y : R) : x = y -> Reqb x y = true.
Proof. intros H. destruct (Reqb_spec x y); [reflexivity | contradiction]. Qed.

Lemma Reqb_false (x y : R) : x <> y -> Reqb x y = false.
Proof. intros H. destruct (Reqb_spec x y); [contradiction | reflexivity]. Qed.

Lemma Math_ceil_bounds (x : R) :
  IZR (Math_ceil x) - 1 < x <= IZR (Math_ceil x).
Proof.
  unfold Math_ceil, Int_part.
  destruct (archimed (- x)) as [Hup Hlow].
  rewrite opp_IZR, minus_IZR. lra.
Qed.

Lemma Math_ceil_unique (x : R) (z : Z) :
  IZR z - 1 < x <= IZR z -> Math_ceil x = z.
Proof.
  intros [Hlo Hhi].
  destruct (Math_ceil_bounds x) as [Clo Chi].
  assert (Hlt1 : (Math_ceil x - 1 < z)%Z).
  { apply lt_IZR. rewrite minus_IZR. lra. }
  assert (Hlt2 : (z - 1 < Math_ceil x)%Z).
  { apply lt_IZR. rewrite minus_IZR. lra. }
  lia.
Qed.

Lemma Math_ceil_IZR (z : Z) : Math_ceil (IZR z) = z.
Proof. apply Math_ceil_unique. lra. Qed.


(** ** Annuity math *)

Lemma powerRZ_gt_1 (x : R) (n : Z) : 1 < x -> (0 < n)%Z -> 1 < powerRZ x n.
Proof.
  intros Hx Hn.
  rewrite <- (Z2Nat.id n) by lia.
  rewrite <- pow_powerRZ.
  apply Rlt_pow_R1; [assumption | lia].
Qed.

Lemma ln_powerRZ_pos (x : R) (n : Z) :
  0 < x -> (0 <= n)%Z -> ln (powerRZ x n) = IZR n * ln x.
Proof.
  intros Hx Hn.
  rewrite <- (Z2Nat.id n) at 1 by lia.
  rewrite <- pow_powerRZ, ln_pow by assumption.
  rewrite INR_IZR_INZ, Z2Nat.id by lia.
  reflexivity.
Qed.

(** The annuity branch of [calculateEMI], for a positive loan. *)
Lemma calculateEMI_annuity (principal r : R) (months : Z) :
  (0 < months)%Z -> 0 < principal -> r <> 0 ->
  calculateEMI principal r months =
    principal * r * powerRZ (1 + r) months / (powerRZ (1 + r) months - 1).
Proof.
  intros Hm Hp Hr. unfold calculateEMI.
  rewrite (proj2 (Z.leb_gt months 0)) by assumption.
  rewrite Reqb_false, Rleb_false, Reqb_false by lra.
  reflexivity.
Qed.

Lemma calculateEMI_straight (principal : R) (months : Z) :
  (0 < months)%Z -> 0 < principal ->
  calculateEMI principal 0 months = principal / IZR months.
Proof.
  intros Hm Hp. unfold calculateEMI.
  rewrite (proj2 (Z.leb_gt months 0)) by assumption.
  rewrite Reqb_false, Rleb_false, Reqb_true by lra.
  reflexivity.
Qed.

Lemma calculateEMI_nonneg (principal r : R) (months : Z) :
  0 <= r -> 0 <= calculateEMI principal r months.
Proof.
  intros Hr. unfold calculateEMI.
  destruct (months <=? 0)%Z eqn:Hm; [lra |].
  apply Z.leb_gt in Hm.
  destruct (Reqb_spec principal 0) as [-> | Hp0]; simpl; [lra |].
  destruct (Rleb_spec principal 0) as [Hle | Hgt]; [lra |].
  assert (Hp : 0 < principal) by lra.
  assert (Hmr : 0 < IZR months) by (apply IZR_lt; assumption).
  destruct (Reqb_spec r 0) as [-> | Hr0].
  - apply Rlt_le, Rdiv_lt_0_compat; assumption.
  - assert (H1 : 1 < powerRZ (1 + r) months) by (apply powerRZ_gt_1; [lra | assumption]).
    apply Rlt_le, Rdiv_lt_0_compat; [| lra].
    apply Rmult_lt_0_compat; [| lra].
    apply Rmult_lt_0_compat; lra.
Qed.

Lemma calculateEMI_zero (principal r : R) (months : Z) :
  (months <= 0)%Z \/ principal <= 0 -> calculateEMI principal r months = 0.
Proof.
  intros [Hm | Hp]; unfold calculateEMI.
  - rewrite (proj2 (Z.leb_le months 0)) by assumption. reflexivity.
  - destruct (months <=? 0)%Z; [reflexivity |].
    rewrite (Rleb_true principal 0), orb_true_r by assumption. reflexivity.
Qed.

(** Where the annuity branch divides, the divisor is not zero. *)
Lemma annuity_divisor_nonzero (r : R) (months : Z) :
  0 < r -> (0 < months)%Z -> powerRZ (1 + r) months - 1 <> 0.
Proof.
  intros Hr Hm.
  assert (H : 1 < powerRZ (1 + r) months)
    by (apply powerRZ_gt_1; [lra | assumption]).
  lra.
Qed.

(** Where the inversion divides and takes logarithms, the divisors are not
    zero and the argument of the logarithm is positive. *)
Lemma inversion_divisors_nonzero (principal emi r : R) :
  0 < principal -> 0 < r -> principal * r + 1e-12 < emi ->
  emi - principal * r <> 0
  /\ 0 < emi / (emi - principal * r)
  /\ ln (1 + r) <> 0.
Proof.
  intros Hp Hr Hemi.
  assert (Hpr : 0 < principal * r) by (apply Rmult_lt_0_compat; assumption).
  split; [lra |]. split.
  - apply Rdiv_lt_0_compat; lra.
  - assert (Hln : 0 < ln (1 + r)).
    { rewrite <- ln_1. apply ln_increasing; lra. }
    lra.
Qed.

(** C3.  [calculateEMI] returns 0 when [months <= 0] or [principal <= 0];
    otherwise [principal / months] when the monthly rate is 0; otherwise the
    annuity payment [principal * r * (1+r)^months / ((1+r)^months - 1)]. *)
Theorem calculateEMI_cases (principal monthlyRate : R) (months : Z) :
  ((months <= 0)%Z \/ principal <= 0 ->
     calculateEMI principal monthlyRate months = 0) /\
  ((0 < months)%Z /\ 0 < principal /\ monthlyRate = 0 ->
     calculateEMI principal monthlyRate months = principal / IZR months) /\
  ((0 < months)%Z /\ 0 < principal /\ monthlyRate <> 0 ->
     calculateEMI principal monthlyRate months =
       principal * monthlyRate * powerRZ (1 + monthlyRate) months
       / (powerRZ (1 + monthlyRate) months - 1)).
Proof.
  repeat split.
  - apply calculateEMI_zero.
  - intros (Hm & Hp & ->). apply calculateEMI_straight; assumption.
  - intros (Hm & Hp & Hr). apply calculateEMI_annuity; assumption.
Qed.

(** The inversion, for an EMI that clears the interest-only payment by more
    than the tolerance of line 45. *)
Lemma calculateRemainingMonths_inverts (P r : R) (n : Z) :
  0 < P -> 0 < r -> (1 <= n)%Z ->
  P * r + 1e-12 < calculateEMI P r n ->
  calculateRemainingMonths P (calculateEMI P r n) r = Finite (IZR n).
Proof.
  intros HP Hr Hn Htol.
  rewrite calculateEMI_annuity in * by (lia || lra).
  set (pw := powerRZ (1 + r) n) in *.
  assert (Hpw : 1 < pw) by (apply powerRZ_gt_1; [lra | lia]).
  set (emi := P * r * pw / (pw - 1)) in *.
  assert (HPr : 0 < P * r) by (apply Rmult_lt_0_compat; assumption).
  unfold calculateRemainingMonths.
  rewrite (Rleb_false P 0), (Rleb_false emi 0), Reqb_false, Rleb_false by lra.
  f_equal.
  assert (Hratio : emi / (emi - P * r) = pw).
  { unfold emi. field. split; lra. }
  rewrite Hratio. unfold pw.
  rewrite ln_powerRZ_pos by (lra || lia).
  assert (Hln : 0 < ln (1 + r)).
  { rewrite <- ln_1. apply ln_increasing; lra. }
  field. lra.
Qed.


Lemma calculateEMI_100_1_1 : calculateEMI 100 1 1 = 200.
Proof.
  rewrite calculateEMI_annuity by (lia || lra).
  change (powerRZ (1 + 1) 1) with ((1 + 1) * 1). field.
Qed.


Lemma calculateEMI_1_1_50 :
  calculateEMI 1 1 50 = 1125899906842624 / 1125899906842623.
Proof.
  rewrite calculateEMI_annuity by (lia || lra).
  replace (powerRZ (1 + 1) 50) with 1125899906842624.
  - field.
  - replace (1 + 1) with 2 by lra.
    change 50%Z with (Z.of_nat 50).
    rewrite <- pow_powerRZ, pow_IZR.
    reflexivity.
Qed.

(** A loan of 1 at a monthly rate of 1 over 50 months has an EMI within
    1e-12 of the interest-only payment, and [calculateRemainingMonths]
    answers [Infinity], not 50. *)
Lemma tolerance_answers_infinity :
  0 < 1 /\ (1 <= 50)%Z /\
  calculateRemainingMonths 1 (calculateEMI 1 1 50) 1 = Infinity /\
  ~ (exists x : R,
       calculateRemainingMonths 1 (calculateEMI 1 1 50) 1 = Finite x /\
       Math_ceil x = 50%Z).
Proof.
  assert (Hinf : calculateRemainingMonths 1 (calculateEMI 1 1 50) 1 = Infinity).
  { rewrite calculateEMI_1_1_50. unfold calculateRemainingMonths.
    rewrite (Rleb_false 1 0) by lra.
    rewrite Rleb_false by lra.
    rewrite Reqb_false by lra.
    rewrite Rleb_true by lra.
    reflexivity. }
  repeat split; [lra | lia | exact Hinf |].
  intros (x & Hx & _). rewrite Hinf in Hx. discriminate.
Qed.

(** ** The walk of [applyUserChanges] *)

Lemma clamp_code (x b : R) :
  (let p := if Rltb x 0 then 0 else x in if Rltb b p then b else p)
  = clamp x 0 b.
Proof.
  unfold clamp, Rmin, Rmax. simpl.
  destruct (Rltb_spec x 0); destruct (Rle_dec x 0); try lra;
    match goal with
    | |- context [Rltb ?u ?v] => destruct (Rltb_spec u v)
    end;
    match goal with
    | |- context [Rle_dec ?u ?v] => destruct (Rle_dec u v)
    end; lra.
Qed.

Lemma clamp_bounds (x b : R) : 0 <= b -> 0 <= clamp x 0 b <= b.
Proof.
  intros Hb. unfold clamp, Rmin, Rmax.
  destruct (Rle_dec x 0); destruct (Rle_dec _ b); lra.
Qed.

Section WalkLemmas.
Variables (P roiStart : R) (originalTenure : Z).
Variables (disbursementsMap prepaymentsMap roiMap : gmap Z R).

Local Abbreviation month := (month disbursementsMap prepaymentsMap roiMap).
Local Abbreviation Head :=
  (Head P roiStart originalTenure disbursementsMap prepaymentsMap roiMap).
Local Abbreviation Runs :=
  (Runs P roiStart originalTenure disbursementsMap prepaymentsMap roiMap).
Local Abbreviation Final :=
  (Final P roiStart originalTenure disbursementsMap prepaymentsMap roiMap).
Local Abbreviation for_loop :=
  (for_loop disbursementsMap prepaymentsMap roiMap).
Local Abbreviation walk :=
  (walk P roiStart originalTenure disbursementsMap prepaymentsMap roiMap).
Local Abbreviation initialLoop := (initialLoop P roiStart originalTenure).
Local Abbreviation rateInEffect := (rateInEffect roiStart roiMap).
Local Abbreviation applyUserChanges :=
  (applyUserChanges P roiStart originalTenure
     disbursementsMap prepaymentsMap roiMap).
Local Abbreviation openingBalance := (openingBalance P).
Local Abbreviation emiInEffect := (emiInEffect P roiStart originalTenure).

(** What one pass does to the variables and which row it appends. *)
Lemma month_inv (monthCount : Z) (s s' : Loop) (stop : bool) :
  month monthCount s = (s', stop) ->
  let d := default 0 (disbursementsMap !! (monthCount - 1)%Z) in
  let p := default 0 (prepaymentsMap !! (monthCount - 1)%Z) in
  exists row : ScheduleRow.t,
    schedule s' = schedule s ++ [row]
    /\ ScheduleRow.monthIndex row = monthCount
    /\ ScheduleRow.interest row = balance s * monthlyRate s
    /\ ScheduleRow.principal row =
         clamp (currentEMI s - balance s * monthlyRate s) 0 (balance s)
    /\ ScheduleRow.disbursement row = d
    /\ ScheduleRow.prepayment row = p
    /\ ScheduleRow.roiChange row = roiMap !! (monthCount - 1)%Z
    /\ ScheduleRow.emi row = currentEMI s'
    /\ ScheduleRow.balance row = Rmax (balance s') 0
    /\ balance s' =
         (if Rltb 0 (d - p) then balance s - ScheduleRow.principal row + (d - p)
          else if Rltb (d - p) 0
               then Rmax 0 (balance s - ScheduleRow.principal row + (d - p))
               else balance s - ScheduleRow.principal row)
    /\ monthlyRate s' =
         match roiMap !! (monthCount - 1)%Z with
         | Some newAnnual => newAnnual / 12 / 100
         | None => monthlyRate s
         end
    /\ totalDisbursements s' =
         totalDisbursements s + (if Rltb 0 (d - p) then d else 0)
    /\ stop =
         Rltb (Rabs (ScheduleRow.principal row)) 1e-12 && Reqb p 0 && Reqb d 0
         && Rltb 0.0001 (balance s').
Proof.
  intros Hm d p. unfold month in Hm.
  rewrite !clamp_code in Hm. fold d p in Hm.
  injection Hm as <- <-. eexists. simpl.
  repeat split.
  destruct (Rltb 0 (d - p)); lra.
Qed.

Lemma Head_length (monthCount : Z) (s : Loop) :
  Head monthCount s ->
  (1 <= monthCount)%Z /\ Z.of_nat (length (schedule s)) = (monthCount - 1)%Z.
Proof.
  induction 1 as [| mc s s' Hh [IH1 IH2] Hg Hm].
  - simpl. lia.
  - destruct (month_inv _ _ _ _ Hm) as (row & Hs & _).
    rewrite Hs, length_app. simpl. lia.
Qed.

Lemma guard_true (monthCount : Z) (s : Loop) :
  guard monthCount s = true ->
  (monthCount <= SAFE_MONTH_CAP)%Z /\ 0.0001 < balance s.
Proof.
  unfold guard. intros [H1 H2]%andb_true_iff.
  apply Z.leb_le in H1.
  destruct (Rltb_spec 0.0001 (balance s)); [auto | discriminate].
Qed.

Lemma guard_false (monthCount : Z) (s : Loop) :
  guard monthCount s = false ->
  (SAFE_MONTH_CAP < monthCount)%Z \/ balance s <= 0.0001.
Proof.
  unfold guard. intros [H1 | H2]%andb_false_iff.
  - left. apply Z.leb_gt in H1. assumption.
  - right. destruct (Rltb_spec 0.0001 (balance s)); [discriminate | lra].
Qed.

(** A pass entered with a positive balance leaves a non-negative one. *)
Lemma month_balance_nonneg (monthCount : Z) (s s' : Loop) (stop : bool) :
  0 <= balance s -> month monthCount s = (s', stop) -> 0 <= balance s'.
Proof.
  intros Hb Hm.
  destruct (month_inv _ _ _ _ Hm)
    as (row & _ & _ & _ & Hp & _ & _ & _ & _ & _ & Hbal & _).
  pose proof (clamp_bounds (currentEMI s - balance s * monthlyRate s) _ Hb)
    as Hc.
  rewrite <- Hp in Hc. rewrite Hbal.
  destruct (Rltb_spec 0 (default 0 (disbursementsMap !! (monthCount - 1)%Z)
                         - default 0 (prepaymentsMap !! (monthCount - 1)%Z)));
    [lra |].
  destruct (Rltb _ 0); [apply Rmax_l | lra].
Qed.

Lemma for_loop_S (fuel : nat) (monthCount : Z) (s : Loop) :
  for_loop (S fuel) monthCount s =
    if guard monthCount s then
      let (s', stop) := month monthCount s in
      if stop then s' else for_loop fuel (monthCount + 1) s'
    else s.
Proof. reflexivity. Qed.

(** With enough passes allowed, the loop leaves by its test or by the
    safety check. *)
Lemma for_loop_Final (fuel : nat) (monthCount : Z) (s : Loop) :
  Head monthCount s ->
  (SAFE_MONTH_CAP < monthCount + Z.of_nat fuel)%Z ->
  Final (for_loop fuel monthCount s).
Proof.
  revert monthCount s.
  induction fuel as [| fuel IH]; intros mc s Hh Hfuel;
    [simpl | rewrite for_loop_S].
  - apply (Final_test _ _ _ _ _ _ mc); [assumption |].
    unfold guard. rewrite (proj2 (Z.leb_gt _ _)) by lia. reflexivity.
  - destruct (guard mc s) eqn:Hg.
    + destruct (month mc s) as [s' stop] eqn:Hm.
      destruct stop.
      * apply (Final_break _ _ _ _ _ _ mc s); [split |]; assumption.
      * apply IH; [| lia]. apply (Head_next _ _ _ _ _ _ mc s); assumption.
    + apply (Final_test _ _ _ _ _ _ mc); assumption.
Qed.

Lemma walk_Final : Final walk.
Proof.
  apply for_loop_Final; [constructor |].
  unfold SAFE_MONTH_CAP. lia.
Qed.

Lemma openingBalance_take (rows : list ScheduleRow.t) (i : nat) :
  openingBalance (take i rows) i = openingBalance rows i.
Proof.
  destruct i as [| j]; [reflexivity |].
  simpl. rewrite lookup_take_lt by lia. reflexivity.
Qed.

Lemma emiInEffect_take (rows : list ScheduleRow.t) (i : nat) :
  emiInEffect (take i rows) i = emiInEffect rows i.
Proof.
  destruct i as [| j]; [reflexivity |].
  simpl. rewrite lookup_take_lt by lia. reflexivity.
Qed.

(** At the loop test the variables agree with the last row written. *)
Lemma Head_inv (monthCount : Z) (s : Loop) :
  Head monthCount s ->
  balance s = openingBalance (schedule s) (length (schedule s))
  /\ currentEMI s = emiInEffect (schedule s) (length (schedule s))
  /\ monthlyRate s = rateInEffect (length (schedule s)).
Proof.
  induction 1 as [| mc s s' Hh (IHb & IHe & IHr) Hg Hm].
  - repeat split.
  - pose proof (Head_length _ _ Hh) as [_ Hlen].
    destruct (guard_true _ _ Hg) as [_ Hpos].
    assert (Hnn : 0 <= balance s') by
      (eapply month_balance_nonneg; [| exact Hm]; lra).
    destruct (month_inv _ _ _ _ Hm)
      as (row & Hs & _ & _ & _ & _ & _ & _ & He & Hb & _ & Hr & _).
    rewrite Hs, length_app, Nat.add_1_r. simpl.
    rewrite list_lookup_middle by reflexivity. simpl.
    rewrite Hb, He, Rmax_left by assumption.
    repeat split.
    rewrite Hr. replace (mc - 1)%Z with (Z.of_nat (length (schedule s))).
    rewrite IHr. reflexivity.
Qed.

Lemma Emitted_app (rows more : list ScheduleRow.t) (i : nat) (row : ScheduleRow.t) :
  (i <= length rows)%nat ->
  Emitted P roiStart originalTenure disbursementsMap prepaymentsMap roiMap
    rows i row ->
  Emitted P roiStart originalTenure disbursementsMap prepaymentsMap roiMap
    (rows ++ more) i row.
Proof.
  intros Hi (s0 & s1 & stop & Hr & Hm & H0 & H1).
  exists s0, s1, stop. rewrite take_app_le by assumption. auto.
Qed.

(** The pass that appends a row emits it. *)
Lemma Emitted_last (monthCount : Z) (s s' : Loop) (stop : bool)
    (row : ScheduleRow.t) :
  Runs monthCount s ->
  month monthCount s = (s', stop) ->
  schedule s' = schedule s ++ [row] ->
  Emitted P roiStart originalTenure disbursementsMap prepaymentsMap roiMap
    (schedule s') (length (schedule s)) row.
Proof.
  intros Hr Hm Hs.
  pose proof (Head_length _ _ (proj1 Hr)) as [_ Hlen].
  exists s, s', stop.
  replace (Z.of_nat (length (schedule s)) + 1)%Z with monthCount by lia.
  rewrite Hs, take_app_length. auto.
Qed.

Lemma Head_rows (monthCount : Z) (s : Loop) :
  Head monthCount s ->
  forall (i : nat) (row : ScheduleRow.t),
    schedule s !! i = Some row ->
    Emitted P roiStart originalTenure disbursementsMap prepaymentsMap roiMap
      (schedule s) i row.
Proof.
  induction 1 as [| mc s s' Hh IH Hg Hm]; intros i row Hi.
  - discriminate.
  - destruct (month_inv _ _ _ _ Hm) as (row' & Hs & _).
    pose proof (Emitted_last mc s s' false row' (conj Hh Hg) Hm Hs) as Hlast.
    rewrite Hs in Hi |- *.
    apply lookup_app_Some in Hi as [Hi | [Hge Hi]].
    + apply Emitted_app; [| apply IH; assumption].
      apply lookup_lt_Some in Hi. lia.
    + apply list_lookup_singleton_Some in Hi as [Hz ->].
      replace i with (length (schedule s)) by lia.
      rewrite <- Hs. assumption.
Qed.

Lemma Final_rows (s : Loop) :
  Final s ->
  forall (i : nat) (row : ScheduleRow.t),
    schedule s !! i = Some row ->
    Emitted P roiStart originalTenure disbursementsMap prepaymentsMap roiMap
      (schedule s) i row.
Proof.
  intros [mc s0 Hh Hg | mc s0 s' Hr Hm] i row Hi.
  - eapply Head_rows; eassumption.
  - destruct (month_inv _ _ _ _ Hm) as (row' & Hs & _).
    pose proof (Emitted_last mc s0 s' true row' Hr Hm Hs) as Hlast.
    rewrite Hs in Hi |- *.
    apply lookup_app_Some in Hi as [Hi | [Hge Hi]].
    + apply Emitted_app; [| eapply Head_rows; [exact (proj1 Hr) | exact Hi]].
      apply lookup_lt_Some in Hi. lia.
    + apply list_lookup_singleton_Some in Hi as [Hz ->].
      replace i with (length (schedule s0)) by lia.
      rewrite <- Hs. assumption.
Qed.

(** Every row of a schedule, read against the row before it. *)
Lemma Emitted_facts (rows : list ScheduleRow.t) (i : nat) (row : ScheduleRow.t) :
  Emitted P roiStart originalTenure disbursementsMap prepaymentsMap roiMap
    rows i row ->
  (i < length rows)%nat ->
  let opening := openingBalance rows i in
  let e := emiInEffect rows i in
  let d := default 0 (disbursementsMap !! Z.of_nat i) in
  let p := default 0 (prepaymentsMap !! Z.of_nat i) in
  0.0001 < opening
  /\ (Z.of_nat i < SAFE_MONTH_CAP)%Z
  /\ ScheduleRow.monthIndex row = (Z.of_nat i + 1)%Z
  /\ ScheduleRow.interest row = opening * rateInEffect i
  /\ ScheduleRow.principal row = clamp (e - opening * rateInEffect i) 0 opening
  /\ ScheduleRow.disbursement row = d
  /\ ScheduleRow.prepayment row = p
  /\ ScheduleRow.roiChange row = roiMap !! Z.of_nat i
  /\ ScheduleRow.balance row =
       (if Rltb 0 (d - p) then opening - ScheduleRow.principal row + (d - p)
        else if Rltb (d - p) 0
             then Rmax 0 (opening - ScheduleRow.principal row + (d - p))
             else opening - ScheduleRow.principal row).
Proof.
  intros (s0 & s1 & stop & [Hh Hg] & Hm & H0 & H1) Hi opening e d p.
  destruct (guard_true _ _ Hg) as [Hcap Hpos].
  destruct (Head_inv _ _ Hh) as (Hb & He & Hr).
  assert (Hlen : length (schedule s0) = i).
  { rewrite H0, length_take. lia. }
  rewrite Hlen, H0 in Hb, He. rewrite Hlen in Hr.
  rewrite openingBalance_take in Hb. rewrite emiInEffect_take in He.
  assert (Hnn : 0 <= balance s1) by
    (eapply month_balance_nonneg; [| exact Hm]; lra).
  destruct (month_inv _ _ _ _ Hm)
    as (row' & Hs & Hidx & Hint & Hpr & Hd & Hp & Hroi & _ & Hrb & Hbal & _).
  rewrite H1, H0 in Hs. apply app_inj_tail in Hs as [_ <-].
  replace (Z.of_nat i + 1 - 1)%Z with (Z.of_nat i) in * by lia.
  rewrite Hb, He, Hr in *.
  rewrite Rmax_left in Hrb by assumption.
  fold opening e d p in Hpos, Hint, Hpr, Hd, Hp, Hbal |- *.
  rewrite Hrb, Hbal.
  repeat split; try assumption. unfold SAFE_MONTH_CAP in *. lia.
Qed.

Lemma walk_rows (i : nat) (row : ScheduleRow.t) :
  schedule walk !! i = Some row ->
  Emitted P roiStart originalTenure disbursementsMap prepaymentsMap roiMap
    (schedule walk) i row.
Proof. apply Final_rows, walk_Final. Qed.

(** The EMI and tenure target a pass leaves behind. *)
Lemma month_policy (monthCount : Z) (s s' : Loop) (stop : bool) :
  month monthCount s = (s', stop) ->
  let d := default 0 (disbursementsMap !! (monthCount - 1)%Z) in
  let p := default 0 (prepaymentsMap !! (monthCount - 1)%Z) in
  let remaining := (targetRemainingMonths s - monthCount)%Z in
  let newEMI := calculateEMI (balance s') (monthlyRate s) remaining in
  let emiChanged :=
    Rltb 0 (d - p) && Rltb 0.0001 (balance s')
    && (0 <? remaining)%Z
    && (Rltb 0 newEMI
        && calculateEMI_isFinite (balance s') (monthlyRate s) remaining) in
  let roiChanged := bool_decide (is_Some (roiMap !! (monthCount - 1)%Z)) in
  let months :=
    calculateRemainingMonths (balance s') (currentEMI s') (monthlyRate s') in
  currentEMI s' = (if emiChanged then newEMI else currentEMI s)
  /\ targetRemainingMonths s' =
       (if roiChanged || (Rltb (d - p) 0 && negb emiChanged)
        then retarget monthCount months (targetRemainingMonths s)
        else targetRemainingMonths s).
Proof.
  intros Hm. unfold month in Hm. injection Hm as <- <-. simpl.
  split; [reflexivity |].
  match goal with
  | |- context [?n && negb (bool_decide ?q) && negb ?e] =>
      destruct e; destruct n; destruct (bool_decide q); reflexivity
  end.
Qed.

Lemma sumOver_snoc (f : ScheduleRow.t -> R) (rows : list ScheduleRow.t) (row : ScheduleRow.t) :
  sumOver f (rows ++ [row]) = sumOver f rows + f row.
Proof.
  unfold sumOver. induction rows as [| r rows IH]; simpl; [lra |].
  rewrite IH. lra.
Qed.

Lemma month_totalDisbursements (monthCount : Z) (s s' : Loop) (stop : bool) :
  month monthCount s = (s', stop) ->
  totalDisbursements s = sumOver countedDisbursement (schedule s) ->
  totalDisbursements s' = sumOver countedDisbursement (schedule s').
Proof.
  intros Hm Hs.
  destruct (month_inv _ _ _ _ Hm)
    as (row & Hsch & _ & _ & _ & Hd & Hp & _ & _ & _ & _ & _ & Htd & _).
  rewrite Hsch, sumOver_snoc, Htd, Hs.
  unfold countedDisbursement. rewrite Hd, Hp. reflexivity.
Qed.

(** [totalDisbursements] is the sum of what the rows written so far
    counted. *)
Lemma Head_totalDisbursements (monthCount : Z) (s : Loop) :
  Head monthCount s ->
  totalDisbursements s = sumOver countedDisbursement (schedule s).
Proof.
  induction 1 as [| mc s s' Hh IH Hg Hm]; [reflexivity |].
  eapply month_totalDisbursements; eassumption.
Qed.

Lemma Final_totalDisbursements (s : Loop) :
  Final s ->
  totalDisbursements s = sumOver countedDisbursement (schedule s).
Proof.
  intros [mc s0 Hh Hg | mc s0 s' [Hh Hg] Hm].
  - eapply Head_totalDisbursements; eassumption.
  - eapply month_totalDisbursements; [eassumption |].
    eapply Head_totalDisbursements; eassumption.
Qed.

(** The counter never passes the cap by more than one. *)
Lemma Head_cap (monthCount : Z) (s : Loop) :
  Head monthCount s -> (monthCount <= SAFE_MONTH_CAP + 1)%Z.
Proof.
  induction 1 as [| mc s s' Hh IH Hg Hm].
  - unfold SAFE_MONTH_CAP. lia.
  - destruct (guard_true _ _ Hg). lia.
Qed.

(** More passes than the cap allows change nothing. *)
Lemma for_loop_fuel (fuel1 fuel2 : nat) (monthCount : Z) (s : Loop) :
  (SAFE_MONTH_CAP < monthCount + Z.of_nat fuel1)%Z ->
  (SAFE_MONTH_CAP < monthCount + Z.of_nat fuel2)%Z ->
  for_loop fuel1 monthCount s = for_loop fuel2 monthCount s.
Proof.
  assert (Hstop : forall fuel mc s0,
             (SAFE_MONTH_CAP < mc)%Z -> for_loop fuel mc s0 = s0).
  { intros [| fuel] mc s0 Hmc; [reflexivity |].
    rewrite for_loop_S. unfold guard.
    rewrite (proj2 (Z.leb_gt _ _)) by lia. reflexivity. }
  revert fuel2 monthCount s.
  induction fuel1 as [| fuel1 IH]; intros fuel2 mc s H1 H2.
  - rewrite !Hstop by lia. reflexivity.
  - destruct fuel2 as [| fuel2].
    + rewrite !Hstop by lia. reflexivity.
    + rewrite !for_loop_S.
      destruct (guard mc s); [| reflexivity].
      destruct (month mc s) as [s' stop].
      destruct stop; [reflexivity |].
      apply IH; lia.
Qed.

Lemma Final_length (s : Loop) :
  Final s -> (Z.of_nat (length (schedule s)) <= SAFE_MONTH_CAP)%Z.
Proof.
  intros [mc s0 Hh Hg | mc s0 s' [Hh Hg] Hm].
  - pose proof (Head_cap _ _ Hh). pose proof (Head_length _ _ Hh). lia.
  - destruct (guard_true _ _ Hg) as [Hcap _].
    destruct (Head_length _ _ Hh) as [_ Hlen].
    destruct (month_inv _ _ _ _ Hm) as (row & Hs & _).
    rewrite Hs, length_app. simpl. lia.
Qed.

Lemma rateInEffect_nonneg (i : nat) :
  0 <= roiStart ->
  (forall (k : Z) (v : R), roiMap !! k = Some v -> 0 <= v) ->
  0 <= rateInEffect i.
Proof.
  intros H0 Hmap. induction i as [| j IH]; simpl.
  - unfold initialMonthlyRate. lra.
  - destruct (roiMap !! Z.of_nat j) as [v |] eqn:Hv; [| assumption].
    apply Hmap in Hv. lra.
Qed.

Lemma currentSchedule_walk : currentSchedule applyUserChanges = schedule walk.
Proof. reflexivity. Qed.

Lemma Head_emi_nonneg (monthCount : Z) (s : Loop) :
  0 <= roiStart ->
  (forall (k : Z) (v : R), roiMap !! k = Some v -> 0 <= v) ->
  Head monthCount s -> 0 <= currentEMI s.
Proof.
  intros H0 Hmap.
  induction 1 as [| mc s s' Hh IH Hg Hm].
  - apply calculateEMI_nonneg. unfold initialMonthlyRate. lra.
  - destruct (month_policy _ _ _ _ Hm) as [He _]. rewrite He.
    destruct (_ && _); [| assumption].
    apply calculateEMI_nonneg.
    destruct (Head_inv _ _ Hh) as (_ & _ & ->).
    apply rateInEffect_nonneg; assumption.
Qed.

(** C1.  Every row of the schedule of [applyUserChanges]: its interest is
    the opening balance times the monthly rate in effect; its principal is
    the EMI in effect minus that interest, clamped to the interval from 0
    to the opening balance (0 when the EMI does not cover the interest);
    its closing balance is the opening balance less the principal, then
    the net of disbursement and prepayment applied, floored at 0 when the
    net is negative.  (No sign condition on the inputs is needed.) *)
Theorem applyUserChanges_month (i : nat) (row : ScheduleRow.t) :
  currentSchedule applyUserChanges !! i = Some row ->
  let rows := currentSchedule applyUserChanges in
  let opening := openingBalance rows i in
  let e := emiInEffect rows i in
  let d := default 0 (disbursementsMap !! Z.of_nat i) in
  let p := default 0 (prepaymentsMap !! Z.of_nat i) in
  ScheduleRow.interest row = opening * rateInEffect i
  /\ ScheduleRow.principal row = clamp (e - ScheduleRow.interest row) 0 opening
  /\ (e - ScheduleRow.interest row < 0 -> ScheduleRow.principal row = 0)
  /\ (0 < d - p ->
        ScheduleRow.balance row = opening - ScheduleRow.principal row + (d - p))
  /\ (d - p < 0 ->
        ScheduleRow.balance row = Rmax 0 (opening - ScheduleRow.principal row + (d - p)))
  /\ (d - p = 0 -> ScheduleRow.balance row = opening - ScheduleRow.principal row).
Proof.
  rewrite currentSchedule_walk. intros Hi rows opening e d p.
  destruct (Emitted_facts _ _ _ (walk_rows _ _ Hi) (lookup_lt_Some _ _ _ Hi))
    as (Hpos & _ & _ & Hint & Hpr & _ & _ & _ & Hbal).
  fold rows opening e d p in Hpos, Hint, Hpr, Hbal.
  rewrite <- Hint in Hpr.
  split; [assumption |]. split; [assumption |].
  split.
  { intros Hneg. rewrite Hpr. unfold clamp.
    rewrite Rmax_right, Rmin_left by lra. reflexivity. }
  rewrite Hbal.
  destruct (Rltb_spec 0 (d - p)); destruct (Rltb_spec (d - p) 0);
    repeat split; intros; try lra; reflexivity.
Qed.


(** C5, as the code has it.  The maps are keyed by the 0-based table index
    ([data-idx], [monthCount - 1]): the entry at key [i] is the one that
    row [i], whose [monthIndex] is [i + 1], records and applies.  Its
    disbursement is added to and its prepayment subtracted from the
    balance left after the principal (floored at 0); the interest of that
    month still uses the rate in effect before, and its [roiChange] is the
    rate of the interest of the month after. *)
Theorem override_applied_in_month (i : nat) (row : ScheduleRow.t) :
  currentSchedule applyUserChanges !! i = Some row ->
  let rows := currentSchedule applyUserChanges in
  let opening := openingBalance rows i in
  ScheduleRow.monthIndex row = (Z.of_nat i + 1)%Z
  /\ ScheduleRow.disbursement row = default 0 (disbursementsMap !! Z.of_nat i)
  /\ ScheduleRow.prepayment row = default 0 (prepaymentsMap !! Z.of_nat i)
  /\ ScheduleRow.roiChange row = roiMap !! Z.of_nat i
  /\ ScheduleRow.balance row =
       Rmax 0 (opening - ScheduleRow.principal row
               + ScheduleRow.disbursement row - ScheduleRow.prepayment row)
  /\ ScheduleRow.interest row = opening * rateInEffect i
  /\ (forall (newAnnual : R) (next : ScheduleRow.t),
        roiMap !! Z.of_nat i = Some newAnnual ->
        rows !! S i = Some next ->
        ScheduleRow.interest next = ScheduleRow.balance row * (newAnnual / 12 / 100)).
Proof.
  rewrite currentSchedule_walk. intros Hi rows opening.
  destruct (Emitted_facts _ _ _ (walk_rows _ _ Hi) (lookup_lt_Some _ _ _ Hi))
    as (Hpos & _ & Hidx & Hint & Hpr & Hd & Hp & Hroi & Hbal).
  fold rows opening in Hpos, Hint, Hpr, Hbal.
  repeat (split; [assumption |]).
  split; [| split; [assumption |]].
  - assert (Hc : 0 <= ScheduleRow.principal row <= opening).
    { rewrite Hpr. apply clamp_bounds. lra. }
    rewrite Hbal, Hd, Hp.
    set (d := default 0 (disbursementsMap !! Z.of_nat i)).
    set (p := default 0 (prepaymentsMap !! Z.of_nat i)).
    replace (opening - ScheduleRow.principal row + d - p)
      with (opening - ScheduleRow.principal row + (d - p)) by lra.
    destruct (Rltb_spec 0 (d - p)); [rewrite Rmax_right; lra |].
    destruct (Rltb_spec (d - p) 0); [reflexivity |].
    rewrite Rmax_right; lra.
  - intros newAnnual next Hnew Hnext.
    destruct (Emitted_facts _ _ _ (walk_rows _ _ Hnext)
                (lookup_lt_Some _ _ _ Hnext))
      as (_ & _ & _ & Hint' & _).
    rewrite Hint'.
    change (openingBalance (schedule walk) (S i))
      with (from_option ScheduleRow.balance 0 (schedule walk !! i)).
    change (rateInEffect (S i))
      with (match roiMap !! Z.of_nat i with
            | Some a => a / 12 / 100
            | None => rateInEffect i
            end).
    rewrite Hi, Hnew. reflexivity.
Qed.


(** What the total counts.  The disbursement total shown is the sum, over
    the rows of the schedule, of the entered (gross) disbursement of each
    month whose disbursement exceeds its prepayment; the completion month
    is the number of rows. *)
Lemma applyUserChanges_totals :
  shownTotalDisbursements applyUserChanges
    = sumOver countedDisbursement (currentSchedule applyUserChanges)
  /\ completionMonthIndex applyUserChanges
      = length (currentSchedule applyUserChanges).
Proof.
  split; [| reflexivity].
  rewrite currentSchedule_walk.
  change (shownTotalDisbursements applyUserChanges)
    with (totalDisbursements walk).
  apply Final_totalDisbursements, walk_Final.
Qed.

(** C10.  When the prepayment of a month, net of its disbursement, exceeds
    the balance left after the principal of that month, the row closes
    with balance 0 and still records the full prepayment entered; the
    excess is carried nowhere: that row is the last of the schedule. *)
Theorem prepayment_excess_discarded (i : nat) (row : ScheduleRow.t) :
  currentSchedule applyUserChanges !! i = Some row ->
  let rows := currentSchedule applyUserChanges in
  let d := default 0 (disbursementsMap !! Z.of_nat i) in
  let p := default 0 (prepaymentsMap !! Z.of_nat i) in
  openingBalance rows i - ScheduleRow.principal row < p - d ->
  ScheduleRow.balance row = 0
  /\ ScheduleRow.prepayment row = p
  /\ length rows = S i.
Proof.
  rewrite currentSchedule_walk. intros Hi rows d p Hex.
  destruct (Emitted_facts _ _ _ (walk_rows _ _ Hi) (lookup_lt_Some _ _ _ Hi))
    as (Hpos & _ & _ & _ & Hpr & _ & Hp & _ & Hbal).
  fold rows d p in Hpos, Hpr, Hp, Hbal.
  assert (Hc : 0 <= ScheduleRow.principal row <= openingBalance rows i).
  { rewrite Hpr. apply clamp_bounds. lra. }
  assert (Hb0 : ScheduleRow.balance row = 0).
  { rewrite Hbal, Rltb_false, Rltb_true, Rmax_left by lra. reflexivity. }
  repeat split; [assumption | assumption |].
  pose proof (lookup_lt_Some _ _ _ Hi) as Hlt.
  destruct (rows !! S i) as [next |] eqn:Hnext.
  - destruct (Emitted_facts _ _ _ (walk_rows _ _ Hnext)
                (lookup_lt_Some _ _ _ Hnext)) as (Hpos' & _).
    change (openingBalance (schedule walk) (S i))
      with (from_option ScheduleRow.balance 0 (schedule walk !! i)) in Hpos'.
    rewrite Hi in Hpos'. simpl in Hpos'. exfalso. lra.
  - apply lookup_ge_None in Hnext. unfold rows in *. lia.
Qed.

(** The bounds of the rows, over the reals.  For a loan within the policy
    ranges and non-negative overrides, every row of the schedule has
    non-negative interest, a principal between 0 and the opening balance, a
    non-negative balance and a non-negative EMI; and a month for which
    [calculateRemainingMonths] answers [Infinity] leaves the tenure target
    as it was.  That the EMI of a row is finite is another matter, settled
    over binary64 below. *)
Lemma schedule_rows_bounded :
  0 < P ->
  0 <= roiStart <= 50 ->
  (1 <= originalTenure <= 600)%Z ->
  (forall (k : Z) (v : R), disbursementsMap !! k = Some v -> 0 <= v) ->
  (forall (k : Z) (v : R), prepaymentsMap !! k = Some v -> 0 <= v) ->
  (forall (k : Z) (v : R), roiMap !! k = Some v -> 0 <= v) ->
  (forall (i : nat) (row : ScheduleRow.t),
      currentSchedule applyUserChanges !! i = Some row ->
      0 <= ScheduleRow.interest row
      /\ 0 <= ScheduleRow.principal row
           <= openingBalance (currentSchedule applyUserChanges) i
      /\ 0 <= ScheduleRow.balance row
      /\ 0 <= ScheduleRow.emi row)
  /\ (forall (monthCount : Z) (s s' : Loop) (stop : bool),
        Runs monthCount s ->
        month monthCount s = (s', stop) ->
        calculateRemainingMonths (balance s') (currentEMI s') (monthlyRate s')
          = Infinity ->
        targetRemainingMonths s' = targetRemainingMonths s).
Proof.
  intros HP [Hr0 _] _ _ _ Hroi. split.
  - rewrite currentSchedule_walk. intros i row Hi.
    pose proof (walk_rows _ _ Hi) as Hem.
    destruct (Emitted_facts _ _ _ Hem (lookup_lt_Some _ _ _ Hi))
      as (Hpos & _ & _ & Hint & Hpr & _).
    pose proof (rateInEffect_nonneg i Hr0 Hroi) as Hrate.
    destruct Hem as (s0 & s1 & stop & [Hh Hg] & Hm & H0 & H1).
    destruct (month_inv _ _ _ _ Hm)
      as (row' & Hs & _ & _ & _ & _ & _ & _ & He & Hrb & _).
    rewrite H1, H0 in Hs. apply app_inj_tail in Hs as [_ <-].
    split; [| split; [| split]].
    + rewrite Hint. apply Rmult_le_pos; lra.
    + rewrite Hpr. apply clamp_bounds. lra.
    + rewrite Hrb. apply Rmax_r.
    + rewrite He.
      destruct (month_policy _ _ _ _ Hm) as [-> _].
      destruct (_ && _).
      * apply calculateEMI_nonneg.
        destruct (Head_inv _ _ Hh) as (_ & _ & ->).
        apply rateInEffect_nonneg; assumption.
      * eapply Head_emi_nonneg; eassumption.
  - intros mc s s' stop _ Hm Hinf.
    destruct (month_policy _ _ _ _ Hm) as [_ ->].
    rewrite Hinf. destruct (_ || _); reflexivity.
Qed.

End WalkLemmas.

(** ** Invalid-range input *)

Lemma for_loop_guard_false (dm pm rm : gmap Z R) (fuel : nat)
    (monthCount : Z) (s : Loop) :
  guard monthCount s = false -> for_loop dm pm rm fuel monthCount s = s.
Proof.
  intros Hg. destruct fuel as [| fuel]; [reflexivity |].
  rewrite for_loop_S, Hg. reflexivity.
Qed.

(** Allowing the baseline loop more passes than the tenure changes
    nothing. *)
Lemma baseline_for_loop_fuel (P annualRate : R) (n : Z) (fuel1 fuel2 : nat)
    (i : Z) (s : Baseline.Loop) :
  (n < i + Z.of_nat fuel1)%Z ->
  (n < i + Z.of_nat fuel2)%Z ->
  Baseline.for_loop P annualRate n fuel1 i s
  = Baseline.for_loop P annualRate n fuel2 i s.
Proof.
  assert (Hstop : forall fuel j s0,
             (n < j)%Z -> Baseline.for_loop P annualRate n fuel j s0 = s0).
  { intros [| fuel] j s0 Hj; [reflexivity |].
    cbn [Baseline.for_loop].
    rewrite (proj2 (Z.leb_gt _ _)) by lia. reflexivity. }
  revert fuel2 i s.
  induction fuel1 as [| fuel1 IH]; intros fuel2 i s H1 H2.
  - rewrite !Hstop by lia. reflexivity.
  - destruct fuel2 as [| fuel2].
    + rewrite !Hstop by lia. reflexivity.
    + cbn [Baseline.for_loop].
      destruct (i <=? n)%Z; [| reflexivity].
      destruct (Rleb _ 0.0001); [reflexivity |].
      apply IH; lia.
Qed.

(** C9, as the code has it.  [calculateEMI] is 0 for a tenure of zero or
    less and for a principal of zero or less; [generateBaseline] writes no
    row for a tenure of zero or less; [applyUserChanges] writes no row for a
    principal of zero or less. *)
Theorem invalid_range_degenerate (P annualRate : R) (n : Z)
    (dm pm rm : gmap Z R) :
  ((n <= 0)%Z \/ P <= 0 -> calculateEMI P (annualRate / 12 / 100) n = 0)
  /\ ((n <= 0)%Z ->
        Baseline.rows (Baseline.generateBaseline P annualRate n) = [])
  /\ (P <= 0 ->
        currentSchedule (applyUserChanges P annualRate n dm pm rm) = []).
Proof.
  split; [| split].
  - apply calculateEMI_zero.
  - intros Hn. unfold Baseline.generateBaseline.
    destruct n as [| q | q]; [reflexivity | lia | reflexivity].
  - intros HP. rewrite currentSchedule_walk. unfold walk.
    rewrite for_loop_guard_false; [reflexivity |].
    unfold guard. simpl. rewrite Rltb_false by lra. reflexivity.
Qed.

(** ** The sample walks, pass by pass *)

Ltac Rtest :=
  match goal with
  | |- context [Rltb ?a ?b] =>
      first [rewrite (Rltb_true a b) by lra | rewrite (Rltb_false a b) by lra]
  | |- context [Rleb ?a ?b] =>
      first [rewrite (Rleb_true a b) by lra | rewrite (Rleb_false a b) by lra]
  | |- context [Reqb ?a ?b] =>
      first [rewrite (Reqb_true a b) by lra | rewrite (Reqb_false a b) by lra]
  | |- context [Rmax ?a ?b] =>
      first [rewrite (Rmax_left a b) by lra | rewrite (Rmax_right a b) by lra]
  | |- context [Rabs ?a] => rewrite (Rabs_pos_eq a) by lra
  end.

Ltac Reval := repeat (simpl; Rtest); simpl.

(** Runs one pass on concrete values. *)
Ltac month_eval :=
  unfold month, calculateRemainingMonths, retarget;
  rewrite ?lookup_empty, ?lookup_singleton_eq, ?lookup_singleton_ne by lia;
  Reval; rewrite ?(Math_ceil_IZR 0); repeat f_equal; lra.

Ltac cap_side := unfold SAFE_MONTH_CAP; simpl; (lia || lra).

Lemma guard_eval_true (monthCount : Z) (s : Loop) :
  (monthCount <= SAFE_MONTH_CAP)%Z -> 0.0001 < balance s ->
  guard monthCount s = true.
Proof.
  intros Hc Hb. unfold guard.
  rewrite (proj2 (Z.leb_le _ _)), Rltb_true by assumption. reflexivity.
Qed.

Lemma guard_eval_false (monthCount : Z) (s : Loop) :
  balance s <= 0.0001 -> guard monthCount s = false.
Proof.
  intros Hb. unfold guard. rewrite Rltb_false by assumption.
  apply andb_false_r.
Qed.

Lemma sample_initialLoop : initialLoop 1000 0 2 = Sample.start.
Proof.
  unfold initialLoop, initialEMI, initialMonthlyRate, Sample.start.
  replace (0 / 12 / 100) with 0 by lra.
  rewrite calculateEMI_straight by (lia || lra).
  change (Z.max 1 2) with 2%Z. f_equal. lra.
Qed.

Lemma late_month1 :
  month Sample.lateDisbursement ∅ ∅ 1 Sample.start = (Sample.after1, false).
Proof. unfold Sample.lateDisbursement, Sample.start. month_eval. Qed.

Lemma late_month2 :
  month Sample.lateDisbursement ∅ ∅ 2 Sample.after1 = (Sample.after2, false).
Proof. unfold Sample.lateDisbursement, Sample.after1. month_eval. Qed.

Lemma late_month3 :
  month Sample.lateDisbursement ∅ ∅ 3 Sample.after2 = (Sample.after3, false).
Proof. unfold Sample.lateDisbursement, Sample.after2. month_eval. Qed.

Lemma late_walk :
  walk 1000 0 2 Sample.lateDisbursement ∅ ∅ = Sample.after3.
Proof.
  unfold walk. rewrite sample_initialLoop.
  change (Z.to_nat SAFE_MONTH_CAP) with (S (S (S (S (Z.to_nat 4996))))).
  rewrite for_loop_S, guard_eval_true, late_month1 by cap_side.
  change (1 + 1)%Z with 2%Z.
  rewrite for_loop_S, guard_eval_true, late_month2 by cap_side.
  change (2 + 1)%Z with 3%Z.
  rewrite for_loop_S, guard_eval_true, late_month3 by cap_side.
  apply for_loop_guard_false, guard_eval_false. simpl. lra.
Qed.

Lemma late_schedule :
  currentSchedule (applyUserChanges 1000 0 2 Sample.lateDisbursement ∅ ∅)
  = [Sample.row1; Sample.row2; Sample.row3].
Proof. rewrite currentSchedule_walk, late_walk. reflexivity. Qed.

Lemma late_Runs1 :
  Runs 1000 0 2 Sample.lateDisbursement ∅ ∅ 1 Sample.start.
Proof.
  split.
  - rewrite <- sample_initialLoop. constructor.
  - apply guard_eval_true; cap_side.
Qed.

Lemma late_Runs2 :
  Runs 1000 0 2 Sample.lateDisbursement ∅ ∅ 2 Sample.after1.
Proof.
  split.
  - change 2%Z with (1 + 1)%Z.
    destruct late_Runs1 as [Hh Hg].
    exact (Head_next _ _ _ _ _ _ _ _ _ Hh Hg late_month1).
  - apply guard_eval_true; cap_side.
Qed.

Lemma paidOff_month1 :
  month Sample.smallDisbursement Sample.largePrepayment ∅ 1 Sample.start
  = (Sample.afterPaidOff, false).
Proof.
  unfold Sample.smallDisbursement, Sample.largePrepayment, Sample.start.
  month_eval.
Qed.

Lemma paidOff_walk :
  walk 1000 0 2 Sample.smallDisbursement Sample.largePrepayment ∅
  = Sample.afterPaidOff.
Proof.
  unfold walk. rewrite sample_initialLoop.
  change (Z.to_nat SAFE_MONTH_CAP) with (S (S (Z.to_nat 4998))).
  rewrite for_loop_S, guard_eval_true, paidOff_month1 by cap_side.
  apply for_loop_guard_false, guard_eval_false. simpl. lra.
Qed.

Lemma paidOff_schedule :
  currentSchedule
    (applyUserChanges 1000 0 2
       Sample.smallDisbursement Sample.largePrepayment ∅)
  = [Sample.paidOff].
Proof. rewrite currentSchedule_walk, paidOff_walk. reflexivity. Qed.

Lemma noTenure_walk : walk 100 0 0 ∅ ∅ ∅ = Sample.afterNoTenure.
Proof.
  assert (Hinit : initialLoop 100 0 0 = mkLoop [] 100 0 100 0 0 0).
  { unfold initialLoop, initialEMI, initialMonthlyRate.
    replace (0 / 12 / 100) with 0 by lra.
    rewrite calculateEMI_straight by (lia || lra).
    change (Z.max 1 0) with 1%Z. f_equal. lra. }
  assert (Hmonth : month ∅ ∅ ∅ 1 (mkLoop [] 100 0 100 0 0 0)
                   = (Sample.afterNoTenure, false)).
  { month_eval. }
  unfold walk. rewrite Hinit.
  change (Z.to_nat SAFE_MONTH_CAP) with (S (S (Z.to_nat 4998))).
  rewrite for_loop_S, guard_eval_true, Hmonth by cap_side.
  apply for_loop_guard_false, guard_eval_false. simpl. lra.
Qed.

Lemma negative_baseline :
  Baseline.rows (Baseline.generateBaseline (-100) 0 1) = [Sample.negativeRow].
Proof.
  unfold Baseline.generateBaseline. simpl.
  unfold Baseline.month, Baseline.baselineEMI, Baseline.monthlyRate,
    calculateEMI.
  Reval. repeat f_equal; lra.
Qed.

(** ** The properties on the sample walks *)

(** The month step at the second row of the late-disbursement walk. *)
Lemma applyUserChanges_month_witness :
  currentSchedule (applyUserChanges 1000 0 2 Sample.lateDisbursement ∅ ∅)
    !! 1%nat = Some Sample.row2
  /\ ScheduleRow.interest Sample.row2
     = openingBalance 1000
         (currentSchedule
            (applyUserChanges 1000 0 2 Sample.lateDisbursement ∅ ∅)) 1
       * rateInEffect 0 ∅ 1.
Proof.
  assert (H : currentSchedule
                (applyUserChanges 1000 0 2 Sample.lateDisbursement ∅ ∅)
                !! 1%nat = Some Sample.row2)
    by (rewrite late_schedule; reflexivity).
  split; [exact H |].
  exact (proj1 (applyUserChanges_month 1000 0 2 Sample.lateDisbursement ∅ ∅
                  1 Sample.row2 H)).
Defined.

(** The first month with 100 disbursed and the rate raised to 12%. *)
Lemma raised_months :
  calculateRemainingMonths 600 600 (12 / 12 / 100)
  = Finite (ln (600 / (600 - 600 * (12 / 12 / 100))) / ln (1 + 12 / 12 / 100)).
Proof.
  unfold calculateRemainingMonths.
  rewrite (Rleb_false 600 0), (Reqb_false (12 / 12 / 100) 0), Rleb_false
    by lra.
  reflexivity.
Qed.

Lemma raised_ceil :
  Math_ceil (ln (600 / (600 - 600 * (12 / 12 / 100))) / ln (1 + 12 / 12 / 100))
  = 2%Z.
Proof.
  apply Math_ceil_unique.
  assert (Hd : 0 < ln (1 + 12 / 12 / 100)).
  { rewrite <- ln_1. apply ln_increasing; lra. }
  assert (Hlo : ln (1 + 12 / 12 / 100)
                < ln (600 / (600 - 600 * (12 / 12 / 100)))).
  { apply ln_increasing; lra. }
  assert (Hhi : ln (600 / (600 - 600 * (12 / 12 / 100)))
                <= 2 * ln (1 + 12 / 12 / 100)).
  { replace (2 * ln (1 + 12 / 12 / 100))
      with (ln ((1 + 12 / 12 / 100) * (1 + 12 / 12 / 100)))
      by (rewrite ln_mult by lra; lra).
    left. apply ln_increasing; lra. }
  set (a := ln (600 / (600 - 600 * (12 / 12 / 100)))) in *.
  set (d := ln (1 + 12 / 12 / 100)) in *.
  assert (Hq : a / d * d = a) by (field; lra).
  split.
  - apply (Rmult_lt_reg_r d); [assumption |]. rewrite Hq. lra.
  - apply (Rmult_le_reg_r d); [assumption |]. rewrite Hq. lra.
Qed.

Lemma raised_month1 :
  month Sample.smallDisbursement ∅ Sample.rateRaised 1 Sample.start
  = (Sample.afterRaised, false).
Proof.
  unfold Sample.smallDisbursement, Sample.rateRaised, Sample.start.
  unfold month, retarget, calculateEMI_isFinite.
  rewrite ?lookup_empty, ?lookup_singleton_eq.
  Reval.
  rewrite (calculateEMI_straight) by (lia || lra).
  change (2 - 1)%Z with 1%Z.
  replace (1000 - (500 - 1000 * 0) + (100 - 0)) with 600 by lra.
  replace (600 / 1) with 600 by lra.
  rewrite (Rltb_true 0 600) by lra. simpl.
  rewrite raised_months, raised_ceil.
  unfold Sample.afterRaised, Sample.raisedRow.
  repeat f_equal; lra.
Qed.

Lemma raised_Runs1 :
  Runs 1000 0 2 Sample.smallDisbursement ∅ Sample.rateRaised 1 Sample.start.
Proof.
  split.
  - rewrite <- sample_initialLoop. constructor.
  - apply guard_eval_true; cap_side.
Qed.



(** The override of table index 1 at the second row. *)
Lemma override_applied_in_month_witness :
  currentSchedule (applyUserChanges 1000 0 2 Sample.lateDisbursement ∅ ∅)
    !! 1%nat = Some Sample.row2
  /\ ScheduleRow.monthIndex Sample.row2 = (Z.of_nat 1 + 1)%Z
  /\ ScheduleRow.disbursement Sample.row2
     = default 0 (Sample.lateDisbursement !! Z.of_nat 1).
Proof.
  assert (H : currentSchedule
                (applyUserChanges 1000 0 2 Sample.lateDisbursement ∅ ∅)
                !! 1%nat = Some Sample.row2)
    by (rewrite late_schedule; reflexivity).
  pose proof (override_applied_in_month 1000 0 2 Sample.lateDisbursement ∅ ∅
                1 Sample.row2 H) as (H1 & H2 & _).
  split; [exact H |]. split; [exact H1 | exact H2].
Defined.

(** C5, as stated, fails.  The disbursement entered at key 1 is not seen by
    the row whose [monthIndex] is 1, which records no disbursement; it is
    the row with [monthIndex] 2 that records and applies it. *)
Lemma override_key_is_table_index :
  Sample.lateDisbursement !! 1%Z = Some 500
  /\ currentSchedule (applyUserChanges 1000 0 2 Sample.lateDisbursement ∅ ∅)
       !! 0%nat = Some Sample.row1
  /\ ScheduleRow.monthIndex Sample.row1 = 1%Z
  /\ ScheduleRow.disbursement Sample.row1 = 0
  /\ ScheduleRow.monthIndex Sample.row2 = 2%Z
  /\ ScheduleRow.disbursement Sample.row2 = 500
  /\ ~ (forall (m : Z) (v : R) (i : nat) (row : ScheduleRow.t),
          Sample.lateDisbursement !! m = Some v ->
          currentSchedule
            (applyUserChanges 1000 0 2 Sample.lateDisbursement ∅ ∅) !! i
            = Some row ->
          ScheduleRow.monthIndex row = m ->
          ScheduleRow.disbursement row = v).
Proof.
  assert (Hk : Sample.lateDisbursement !! 1%Z = Some 500)
    by apply lookup_singleton_eq.
  assert (H0 : currentSchedule
                 (applyUserChanges 1000 0 2 Sample.lateDisbursement ∅ ∅)
                 !! 0%nat = Some Sample.row1)
    by (rewrite late_schedule; reflexivity).
  repeat (split; [first [exact Hk | exact H0 | reflexivity] |]).
  intros Hall.
  pose proof (Hall 1%Z 500 0%nat Sample.row1 Hk H0 eq_refl) as Hbad.
  simpl in Hbad. lra.
Qed.

(** The row bounds at the first row of the late-disbursement walk. *)
Lemma schedule_rows_bounded_witness :
  (0 < 1000 /\ 0 <= 0 <= 50 /\ (1 <= 2 <= 600)%Z)
  /\ 0 <= ScheduleRow.interest Sample.row1
  /\ 0 <= ScheduleRow.principal Sample.row1
       <= openingBalance 1000
            (currentSchedule
               (applyUserChanges 1000 0 2 Sample.lateDisbursement ∅ ∅)) 0
  /\ 0 <= ScheduleRow.balance Sample.row1
  /\ 0 <= ScheduleRow.emi Sample.row1.
Proof.
  assert (HP : 0 < 1000) by lra.
  assert (Hr : 0 <= 0 <= 50) by lra.
  assert (Hn : (1 <= 2 <= 600)%Z) by lia.
  assert (Hd : forall (k : Z) (v : R),
             Sample.lateDisbursement !! k = Some v -> 0 <= v).
  { intros k v Hkv. unfold Sample.lateDisbursement in Hkv.
    apply lookup_singleton_Some in Hkv as [_ <-]. lra. }
  assert (He : forall (k : Z) (v : R),
             (∅ : gmap Z R) !! k = Some v -> 0 <= v).
  { intros k v Hkv. rewrite lookup_empty in Hkv. discriminate. }
  assert (H0 : currentSchedule
                 (applyUserChanges 1000 0 2 Sample.lateDisbursement ∅ ∅)
                 !! 0%nat = Some Sample.row1)
    by (rewrite late_schedule; reflexivity).
  split; [auto |].
  exact (proj1 (schedule_rows_bounded 1000 0 2 Sample.lateDisbursement ∅ ∅
                  HP Hr Hn Hd He He) 0%nat Sample.row1 H0).
Defined.

(** C8.  The loan of 1000 at 0% over 2 months with 100 disbursed and 2000
    prepaid in the first month: the net is negative, the line that tracks
    the disbursements (963) is not reached, and the total shown is 0, not
    the 100 the disbursement map sums to, while [generateSummaryReport]
    counts the 100 on the same schedule. *)
Theorem totalDisbursements_skips_netted_month :
  shownTotalDisbursements
    (applyUserChanges 1000 0 2
       Sample.smallDisbursement Sample.largePrepayment ∅) = 0
  /\ sumOfValues Sample.smallDisbursement = 100
  /\ shownTotalDisbursements
       (applyUserChanges 1000 0 2
          Sample.smallDisbursement Sample.largePrepayment ∅)
     <> sumOfValues Sample.smallDisbursement
  /\ exists rep : SummaryReport,
       generateSummaryReport 2
         (currentSchedule
            (applyUserChanges 1000 0 2
               Sample.smallDisbursement Sample.largePrepayment ∅))
       = Some rep
       /\ reportTotalDisbursements rep = 100.
Proof.
  assert (Ht : shownTotalDisbursements
                 (applyUserChanges 1000 0 2
                    Sample.smallDisbursement Sample.largePrepayment ∅) = 0).
  { change (shownTotalDisbursements
              (applyUserChanges 1000 0 2
                 Sample.smallDisbursement Sample.largePrepayment ∅))
      with (totalDisbursements
              (walk 1000 0 2
                 Sample.smallDisbursement Sample.largePrepayment ∅)).
    rewrite paidOff_walk. reflexivity. }
  assert (Hs : sumOfValues Sample.smallDisbursement = 100).
  { unfold sumOfValues, Sample.smallDisbursement.
    rewrite map_fold_singleton. lra. }
  split; [exact Ht |]. split; [exact Hs |].
  split; [rewrite Ht, Hs; lra |].
  rewrite paidOff_schedule. eexists. split; [reflexivity |].
  simpl. lra.
Qed.

(** C9, as stated, fails.  With a tenure of 0 and a loan of 100,
    [applyUserChanges] writes a row (the EMI is computed over one month);
    with a loan of -100 over one month, [generateBaseline] writes a row. *)
Lemma invalid_range_still_writes_rows :
  currentSchedule (applyUserChanges 100 0 0 ∅ ∅ ∅) = [Sample.noTenureRow]
  /\ Baseline.rows (Baseline.generateBaseline (-100) 0 1)
     = [Sample.negativeRow].
Proof.
  split.
  - rewrite currentSchedule_walk, noTenure_walk. reflexivity.
  - exact negative_baseline.
Qed.

(** The oversized prepayment of the paid-off walk. *)
Lemma prepayment_excess_discarded_witness :
  currentSchedule
    (applyUserChanges 1000 0 2
       Sample.smallDisbursement Sample.largePrepayment ∅)
    !! 0%nat = Some Sample.paidOff
  /\ ScheduleRow.balance Sample.paidOff = 0
  /\ ScheduleRow.prepayment Sample.paidOff
     = default 0 (Sample.largePrepayment !! Z.of_nat 0)
  /\ length
       (currentSchedule
          (applyUserChanges 1000 0 2
             Sample.smallDisbursement Sample.largePrepayment ∅)) = 1%nat.
Proof.
  assert (H0 : currentSchedule
                 (applyUserChanges 1000 0 2
                    Sample.smallDisbursement Sample.largePrepayment ∅)
                 !! 0%nat = Some Sample.paidOff)
    by (rewrite paidOff_schedule; reflexivity).
  split; [exact H0 |].
  apply (prepayment_excess_discarded 1000 0 2
           Sample.smallDisbursement Sample.largePrepayment ∅
           0 Sample.paidOff H0).
  unfold Sample.smallDisbursement, Sample.largePrepayment.
  change (Z.of_nat 0) with 0%Z.
  rewrite !lookup_singleton_eq. simpl. lra.
Defined.

(** ** The code over binary64 *)

Lemma powerRZ_2_neg47 : powerRZ 2 (-47) = / 140737488355328.
Proof.
  change (-47)%Z with (- Z.of_nat 47)%Z.
  rewrite powerRZ_neg', <- pow_powerRZ, pow_IZR. reflexivity.
Qed.

Lemma powerRZ_2_neg51 : powerRZ 2 (-51) = / 2251799813685248.
Proof.
  change (-51)%Z with (- Z.of_nat 51)%Z.
  rewrite powerRZ_neg', <- pow_powerRZ, pow_IZR. reflexivity.
Qed.

Lemma ln_32 : ln 32 = 5 * ln 2.
Proof.
  replace 32 with (2 * (2 * (2 * (2 * 2)))) by lra.
  rewrite !ln_mult by lra. lra.
Qed.

Lemma ln_64 : ln 64 = 6 * ln 2.
Proof.
  replace 64 with (2 * (2 * (2 * (2 * (2 * 2))))) by lra.
  rewrite !ln_mult by lra. lra.
Qed.

Section Binary64Facts.
Import PrimFloat FloatOps.
Local Set Warnings "-inexact-float".
Local Open Scope float_scope.

Lemma binary64_rate_absorbed : 1 + 1e-14 / 12 / 100 = 1.
Proof. reflexivity. Qed.

Lemma binary64_initialEMI (Math_pow : float -> Z -> float) :
  Math_pow 1 12%Z = 1 ->
  Binary64.initialEMI Math_pow 1000 1e-14 12 = infinity.
Proof.
  intros Hpow. unfold Binary64.initialEMI, Binary64.calculateEMI.
  change (Z.max 1 12) with 12%Z.
  change (1 + Binary64.initialMonthlyRate 1e-14) with 1.
  rewrite Hpow. reflexivity.
Qed.

(** C7.  A loan of 1000 at an annual rate of 1e-14 % over 12 months, with an
    empty table, is within the policy ranges.  In binary64 the monthly rate
    is absorbed, [1 + r = 1], so that [pow - 1] is 0 and the initial EMI of
    lines 915-919, which no [isFinite] guards (the recomputed EMI of line
    989 is guarded), is [Infinity]: the one row of the schedule carries an
    infinite [emi].  [Math.pow] is only assumed to give 1 for base 1. *)
Theorem initial_emi_not_finite (Math_pow : float -> Z -> float)
    (Math_log : float -> float) :
  Math_pow 1 12%Z = 1 ->
  Binary64.currentSchedule Math_pow Math_log 1000 1e-14 12 ∅ ∅ ∅
  = [ {| Binary64.ScheduleRow.monthIndex := 1;
         Binary64.ScheduleRow.emi := infinity;
         Binary64.ScheduleRow.interest := 1000 * (1e-14 / 12 / 100);
         Binary64.ScheduleRow.principal := 1000;
         Binary64.ScheduleRow.disbursement := 0;
         Binary64.ScheduleRow.prepayment := 0;
         Binary64.ScheduleRow.roiChange := None;
         Binary64.ScheduleRow.balance := 0 |} ].
Proof.
  intros Hpow.
  unfold Binary64.currentSchedule, Binary64.walk, Binary64.initialLoop.
  rewrite (binary64_initialEMI Math_pow Hpow).
  vm_compute. reflexivity.
Qed.

Lemma initial_emi_not_finite_witness :
  Binary64.currentSchedule Binary64.repeatedProduct (fun x => x)
    1000 1e-14 12 ∅ ∅ ∅
  = [ {| Binary64.ScheduleRow.monthIndex := 1;
         Binary64.ScheduleRow.emi := infinity;
         Binary64.ScheduleRow.interest := 1000 * (1e-14 / 12 / 100);
         Binary64.ScheduleRow.principal := 1000;
         Binary64.ScheduleRow.disbursement := 0;
         Binary64.ScheduleRow.prepayment := 0;
         Binary64.ScheduleRow.roiChange := None;
         Binary64.ScheduleRow.balance := 0 |} ].
Proof.
  apply (initial_emi_not_finite Binary64.repeatedProduct (fun x => x)).
  reflexivity.
Defined.

Lemma binary64_emi_100_1_5 (Math_pow : float -> Z -> float) :
  Math_pow 2 5%Z = 32 ->
  Binary64.calculateEMI Math_pow 100 1 5 = 103.2258064516129.
Proof.
  intros Hpow. unfold Binary64.calculateEMI.
  change (1 + 1) with 2. cbv zeta.
  change (5 <=? 0)%Z with false.
  change (is_nan 100 || (100 =? 0) || (100 <=? 0)) with false.
  change (1 =? 0) with false. cbv iota.
  rewrite Hpow. reflexivity.
Qed.

Lemma binary64_inverse_rounds_up (Math_pow : float -> Z -> float) :
  Math_pow 2 5%Z = 32 ->
  let emi := Binary64.calculateEMI Math_pow 100 1 5 in
  let argument := emi / (emi - 100 * 1) in
  argument = 32.000000000000064
  /\ Math_ceil (ln (Binary64.toR argument) / ln (Binary64.toR (1 + 1)))
     = 6%Z.
Proof.
  intros Hpow emi argument. unfold argument, emi.
  rewrite (binary64_emi_100_1_5 Math_pow Hpow).
  change (103.2258064516129 / (103.2258064516129 - 100 * 1))
    with 32.000000000000064.
  split; [reflexivity |].
  change (Binary64.toR 32.000000000000064)
    with (IZR 4503599627370505 * powerRZ 2 (-47))%R.
  change (Binary64.toR (1 + 1))
    with (IZR 4503599627370496 * powerRZ 2 (-51))%R.
  rewrite powerRZ_2_neg47, powerRZ_2_neg51.
  replace (4503599627370496 * / 2251799813685248)%R with 2%R by lra.
  set (a := (4503599627370505 * / 140737488355328)%R).
  assert (Hlo : (32 < a)%R) by (unfold a; lra).
  assert (Hhi : (a < 64)%R) by (unfold a; lra).
  assert (H2 : (0 < ln 2)%R).
  { rewrite <- ln_1. apply ln_increasing; lra. }
  assert (H32 : (ln 32 < ln a)%R) by (apply ln_increasing; lra).
  assert (H64 : (ln a < ln 64)%R) by (apply ln_increasing; lra).
  rewrite ln_32 in H32. rewrite ln_64 in H64.
  assert (Hq : (ln a / ln 2 * ln 2 = ln a)%R) by (field; lra).
  apply Math_ceil_unique. split.
  - apply (Rmult_lt_reg_r (ln 2)); [assumption |]. rewrite Hq. lra.
  - apply (Rmult_le_reg_r (ln 2)); [assumption |]. rewrite Hq. lra.
Qed.

End Binary64Facts.

(** * Further properties *)

(** ** More on the annuity math *)

Lemma powerRZ_le_mono (x : R) (n m : Z) :
  1 <= x -> (0 <= n <= m)%Z -> powerRZ x n <= powerRZ x m.
Proof.
  intros Hx [Hn Hm].
  replace m with (n + (m - n))%Z by lia.
  rewrite powerRZ_add by lra.
  assert (H0 : 0 < powerRZ x n) by (apply powerRZ_lt; lra).
  assert (H1 : 1 <= powerRZ x (m - n)).
  { rewrite <- (Z2Nat.id (m - n)) by lia. rewrite <- pow_powerRZ.
    apply pow_R1_Rle. assumption. }
  nra.
Qed.

(** X2. For a positive principal and a rate that is not negative, a longer
    tenure never raises the EMI: [calculateEMI P r m <= calculateEMI P r n]
    whenever [1 <= n <= m]. *)
Theorem calculateEMI_antitone_months (P r : R) (n m : Z) :
  0 < P -> 0 <= r -> (1 <= n <= m)%Z ->
  calculateEMI P r m <= calculateEMI P r n.
Proof.
  intros HP Hr [Hn Hm].
  assert (Hnr : 0 < IZR n) by (apply IZR_lt; lia).
  assert (Hnm : IZR n <= IZR m) by (apply IZR_le; lia).
  destruct (Req_dec_T r 0) as [-> | Hr0].
  - rewrite !calculateEMI_straight by (lia || lra).
    unfold Rdiv. apply Rmult_le_compat_l; [lra |].
    apply Rinv_le_contravar; assumption.
  - rewrite !calculateEMI_annuity by (lia || lra).
    set (pn := powerRZ (1 + r) n). set (pm := powerRZ (1 + r) m).
    assert (Hpn : 1 < pn) by (apply powerRZ_gt_1; [lra | lia]).
    assert (Hpm : pn <= pm) by (apply powerRZ_le_mono; [lra | lia]).
    assert (HPr : 0 < P * r) by (apply Rmult_lt_0_compat; lra).
    replace (P * r * pm / (pm - 1)) with (P * r + P * r * / (pm - 1))
      by (field; lra).
    replace (P * r * pn / (pn - 1)) with (P * r + P * r * / (pn - 1))
      by (field; lra).
    assert (/ (pm - 1) <= / (pn - 1)) by (apply Rinv_le_contravar; lra).
    nra.
Qed.

Lemma Math_ceil_mono (x y : R) : x <= y -> (Math_ceil x <= Math_ceil y)%Z.
Proof.
  intros Hxy.
  destruct (Math_ceil_bounds x) as [Hx1 Hx2].
  destruct (Math_ceil_bounds y) as [Hy1 Hy2].
  assert (H : (Math_ceil x - 1 < Math_ceil y)%Z).
  { apply lt_IZR. rewrite minus_IZR. lra. }
  lia.
Qed.

(** The finite answers of the inversion at a positive rate. *)
Lemma calculateRemainingMonths_finite_inv (P emi r : R) (x : R) :
  0 < P -> 0 < r ->
  calculateRemainingMonths P emi r = Finite x ->
  P * r + 1e-12 < emi
  /\ x = ln (emi / (emi - P * r)) / ln (1 + r).
Proof.
  intros HP Hr. unfold calculateRemainingMonths.
  rewrite (Rleb_false P 0) by lra.
  destruct (Rleb_spec emi 0); [discriminate |].
  rewrite Reqb_false by lra.
  destruct (Rleb_spec emi (P * r + 1e-12)); [discriminate |].
  intros [= <-]. split; [lra | reflexivity].
Qed.

(** X4. At a positive rate, when [calculateRemainingMonths] returns a whole
    number of months [n] for a positive principal, then [n >= 1] and
    [calculateEMI] of that principal over [n] months is exactly the EMI
    given. *)
Theorem calculateRemainingMonths_right_inverse (P emi r : R) (n : Z) :
  0 < P -> 0 < r ->
  calculateRemainingMonths P emi r = Finite (IZR n) ->
  (1 <= n)%Z /\ calculateEMI P r n = emi.
Proof.
  intros HP Hr Hfin.
  destruct (calculateRemainingMonths_finite_inv _ _ _ _ HP Hr Hfin)
    as [Hemi Hx].
  assert (HPr : 0 < P * r) by (apply Rmult_lt_0_compat; assumption).
  assert (Hln : 0 < ln (1 + r)).
  { rewrite <- ln_1. apply ln_increasing; lra. }
  set (ratio := emi / (emi - P * r)) in *.
  assert (Hratio : 1 < ratio).
  { unfold ratio. apply Rmult_lt_reg_r with (r := emi - P * r); [lra |].
    replace (emi / (emi - P * r) * (emi - P * r)) with emi by (field; lra).
    lra. }
  assert (Hlr : 0 < ln ratio).
  { rewrite <- ln_1. apply ln_increasing; lra. }
  assert (Hn : ln ratio = IZR n * ln (1 + r)).
  { rewrite Hx. field. lra. }
  assert (Hn1 : (1 <= n)%Z).
  { assert (0 < IZR n) by nra.
    assert ((0 < n)%Z) by (apply lt_IZR; assumption). lia. }
  split; [assumption |].
  rewrite <- (ln_powerRZ_pos (1 + r) n) in Hn by (lra || lia).
  apply ln_inv in Hn; [| lra | apply powerRZ_lt; lra].
  rewrite calculateEMI_annuity by (lia || lra).
  rewrite <- Hn. unfold ratio. field. split; lra.
Qed.

(** X5. A higher EMI never lengthens the loan: when
    [calculateRemainingMonths] is finite for an EMI, it is finite and not
    larger for every EMI at least as high (positive principal, rate not
    negative). *)
Theorem calculateRemainingMonths_antitone_emi (P emi1 emi2 r x1 : R) :
  0 < P -> 0 <= r -> emi1 <= emi2 ->
  calculateRemainingMonths P emi1 r = Finite x1 ->
  exists x2 : R,
    calculateRemainingMonths P emi2 r = Finite x2 /\ x2 <= x1.
Proof.
  intros HP Hr Hle Hfin.
  destruct (Req_dec_T r 0) as [-> | Hr0].
  - unfold calculateRemainingMonths in *.
    rewrite (Rleb_false P 0) in * by lra.
    destruct (Rleb_spec emi1 0); [discriminate |].
    rewrite (Rleb_false emi2 0) by lra.
    rewrite Reqb_true in * by reflexivity.
    injection Hfin as <-.
    eexists. split; [reflexivity |].
    apply IZR_le, Math_ceil_mono.
    unfold Rdiv. apply Rmult_le_compat_l; [lra |].
    apply Rinv_le_contravar; lra.
  - assert (Hr' : 0 < r) by lra.
    destruct (calculateRemainingMonths_finite_inv _ _ _ _ HP Hr' Hfin)
      as [Hemi ->].
    assert (HPr : 0 < P * r) by (apply Rmult_lt_0_compat; assumption).
    unfold calculateRemainingMonths.
    rewrite (Rleb_false P 0), (Rleb_false emi2 0), Reqb_false, Rleb_false
      by lra.
    eexists. split; [reflexivity |].
    assert (Hln : 0 < ln (1 + r)).
    { rewrite <- ln_1. apply ln_increasing; lra. }
    unfold Rdiv. apply Rmult_le_compat_r; [apply Rlt_le, Rinv_0_lt_compat; lra |].
    assert (Hratio : emi2 * / (emi2 - P * r) <= emi1 * / (emi1 - P * r)).
    { apply Rmult_le_reg_r with (r := (emi1 - P * r) * (emi2 - P * r)); [nra |].
      replace (emi2 * / (emi2 - P * r) * ((emi1 - P * r) * (emi2 - P * r)))
        with (emi2 * (emi1 - P * r)) by (field; lra).
      replace (emi1 * / (emi1 - P * r) * ((emi1 - P * r) * (emi2 - P * r)))
        with (emi1 * (emi2 - P * r)) by (field; lra).
      nra. }
    destruct Hratio as [Hlt | Heq].
    + apply Rlt_le, ln_increasing; [| assumption].
      apply Rmult_lt_0_compat; [lra | apply Rinv_0_lt_compat; lra].
    + rewrite Heq. lra.
Qed.

(** X6. At rate zero, for a positive principal and a positive EMI,
    [calculateRemainingMonths] returns the least whole number [k] of
    instalments that cover the principal: [(k - 1) * emi < P <= k * emi]. *)
Theorem calculateRemainingMonths_zero_rate (P emi : R) :
  0 < P -> 0 < emi ->
  exists k : Z,
    calculateRemainingMonths P emi 0 = Finite (IZR k)
    /\ (IZR k - 1) * emi < P <= IZR k * emi.
Proof.
  intros HP He. exists (Math_ceil (P / emi)). split.
  - unfold calculateRemainingMonths.
    rewrite (Rleb_false P 0), (Rleb_false emi 0), Reqb_true by lra.
    reflexivity.
  - destruct (Math_ceil_bounds (P / emi)) as [H1 H2].
    split.
    + apply Rmult_lt_compat_r with (r := emi) in H1; [| assumption].
      replace (P / emi * emi) with P in H1 by (field; lra). assumption.
    + apply Rmult_le_compat_r with (r := emi) in H2; [| lra].
      replace (P / emi * emi) with P in H2 by (field; lra). assumption.
Qed.

(** ** The baseline walk *)

Lemma baseline_month_inv (P annualRate : R) (n i : Z) (s : Baseline.Loop) :
  exists row : ScheduleRow.t,
    Baseline.rows (Baseline.month P annualRate n i s)
      = Baseline.rows s ++ [row]
    /\ ScheduleRow.monthIndex row = i
    /\ ScheduleRow.emi row = Baseline.baselineEMI P annualRate n
    /\ ScheduleRow.interest row
       = Baseline.balance s * Baseline.monthlyRate annualRate
    /\ ScheduleRow.principal row
       = clamp (Baseline.baselineEMI P annualRate n
                - Baseline.balance s * Baseline.monthlyRate annualRate)
           0 (Baseline.balance s)
    /\ ScheduleRow.disbursement row = 0
    /\ ScheduleRow.prepayment row = 0
    /\ ScheduleRow.roiChange row = None
    /\ ScheduleRow.balance row
       = Rmax (Baseline.balance (Baseline.month P annualRate n i s)) 0
    /\ Baseline.balance (Baseline.month P annualRate n i s)
       = Baseline.balance s - ScheduleRow.principal row
    /\ Baseline.totalInterest (Baseline.month P annualRate n i s)
       = Baseline.totalInterest s + ScheduleRow.interest row.
Proof.
  unfold Baseline.month. rewrite !clamp_code.
  eexists. simpl. repeat split.
Qed.

Lemma baseline_for_loop_S (P annualRate : R) (n : Z) (fuel : nat) (i : Z)
    (s : Baseline.Loop) :
  Baseline.for_loop P annualRate n (S fuel) i s =
    if (i <=? n)%Z then
      if Rleb (Baseline.balance (Baseline.month P annualRate n i s)) 0.0001
      then Baseline.month P annualRate n i s
      else Baseline.for_loop P annualRate n fuel (i + 1)
             (Baseline.month P annualRate n i s)
    else s.
Proof. reflexivity. Qed.

(** A property kept by every pass is kept by the loop. *)
Lemma baseline_for_loop_inv (P annualRate : R) (n : Z)
    (Inv : Z -> Baseline.Loop -> Prop) :
  (forall (i : Z) (s : Baseline.Loop),
      (i <= n)%Z -> Inv i s ->
      Inv (i + 1)%Z (Baseline.month P annualRate n i s)) ->
  forall (fuel : nat) (i : Z) (s : Baseline.Loop),
    Inv i s ->
    exists j : Z,
      (i <= j)%Z
      /\ (j <= i + Z.of_nat fuel)%Z
      /\ Inv j (Baseline.for_loop P annualRate n fuel i s).
Proof.
  intros Hstep fuel. induction fuel as [| fuel IH]; intros i s Hinv.
  - exists i. simpl. repeat split; (lia || assumption).
  - rewrite baseline_for_loop_S.
    destruct (i <=? n)%Z eqn:Hi.
    + apply Z.leb_le in Hi.
      pose proof (Hstep i s Hi Hinv) as H1.
      destruct (Rleb _ 0.0001).
      * exists (i + 1)%Z. repeat split; (lia || assumption).
      * destruct (IH _ _ H1) as (j & Hj1 & Hj2 & Hj).
        exists j. repeat split; (lia || assumption).
    + exists i. repeat split; (lia || assumption).
Qed.

(** X7. In the result of [generateBaseline], for every input, the closing
    balance plus the principal parts of the rows is the loan amount, and
    the interest total is the sum of the interest parts of the rows. *)
Theorem baseline_ledger (P annualRate : R) (n : Z) :
  Baseline.balance (Baseline.generateBaseline P annualRate n)
  + sumOver ScheduleRow.principal
      (Baseline.rows (Baseline.generateBaseline P annualRate n)) = P
  /\ Baseline.totalInterest (Baseline.generateBaseline P annualRate n)
     = sumOver ScheduleRow.interest
         (Baseline.rows (Baseline.generateBaseline P annualRate n)).
Proof.
  unfold Baseline.generateBaseline.
  destruct (baseline_for_loop_inv P annualRate n
              (fun _ s =>
                 Baseline.balance s
                 + sumOver ScheduleRow.principal (Baseline.rows s) = P
                 /\ Baseline.totalInterest s
                    = sumOver ScheduleRow.interest (Baseline.rows s)))
    with (fuel := Z.to_nat n) (i := 1%Z)
         (s := Baseline.mkLoop [] P 0)
    as (j & _ & _ & H).
  - intros i s _ [Hb Ht].
    destruct (baseline_month_inv P annualRate n i s)
      as (row & Hr & _ & _ & _ & _ & _ & _ & _ & _ & Hbal & Htot).
    rewrite Hr, !sumOver_snoc, Hbal, Htot. split; lra.
  - simpl. split; lra.
  - exact H.
Qed.

(** X8. [generateBaseline] writes at most [n] rows (none for [n <= 0]); row
    [k] (from 0) carries month index [k + 1], and every row carries the
    same EMI, [calculateEMI P (annualRate / 12 / 100) n]. *)
Theorem baseline_numbering (P annualRate : R) (n : Z) :
  (Z.of_nat (length (Baseline.rows (Baseline.generateBaseline P annualRate n)))
   <= Z.max 0 n)%Z
  /\ forall (k : nat) (row : ScheduleRow.t),
       Baseline.rows (Baseline.generateBaseline P annualRate n) !! k
         = Some row ->
       ScheduleRow.monthIndex row = (Z.of_nat k + 1)%Z
       /\ ScheduleRow.emi row = calculateEMI P (annualRate / 12 / 100) n.
Proof.
  unfold Baseline.generateBaseline.
  destruct (baseline_for_loop_inv P annualRate n
              (fun i s =>
                 Z.of_nat (length (Baseline.rows s)) = (i - 1)%Z
                 /\ forall (k : nat) (row : ScheduleRow.t),
                      Baseline.rows s !! k = Some row ->
                      ScheduleRow.monthIndex row = (Z.of_nat k + 1)%Z
                      /\ ScheduleRow.emi row
                         = calculateEMI P (annualRate / 12 / 100) n))
    with (fuel := Z.to_nat n) (i := 1%Z)
         (s := Baseline.mkLoop [] P 0)
    as (j & Hj1 & Hj2 & Hlen & Hrows).
  - intros i s _ [Hlen Hrows].
    destruct (baseline_month_inv P annualRate n i s)
      as (row & Hr & Hidx & Hemi & _).
    rewrite Hr, length_app. simpl. split; [lia |].
    intros k row' Hk.
    apply lookup_app_Some in Hk as [Hk | [Hge Hk]].
    + apply Hrows. assumption.
    + apply list_lookup_singleton_Some in Hk as [Hz <-].
      split; [lia | exact Hemi].
  - simpl. split; [lia |]. intros k row Hk. rewrite lookup_nil in Hk. discriminate.
  - split; [lia | exact Hrows].
Qed.

Section MoreWalkLemmas.
Variables (P roiStart : R) (originalTenure : Z).
Variables (disbursementsMap prepaymentsMap roiMap : gmap Z R).

Local Abbreviation month := (month disbursementsMap prepaymentsMap roiMap).
Local Abbreviation Head :=
  (Head P roiStart originalTenure disbursementsMap prepaymentsMap roiMap).
Local Abbreviation Runs :=
  (Runs P roiStart originalTenure disbursementsMap prepaymentsMap roiMap).
Local Abbreviation Final :=
  (Final P roiStart originalTenure disbursementsMap prepaymentsMap roiMap).
Local Abbreviation Emitted :=
  (Emitted P roiStart originalTenure disbursementsMap prepaymentsMap roiMap).
Local Abbreviation walk :=
  (walk P roiStart originalTenure disbursementsMap prepaymentsMap roiMap).
Local Abbreviation rateInEffect := (rateInEffect roiStart roiMap).
Local Abbreviation applyUserChanges :=
  (applyUserChanges P roiStart originalTenure
     disbursementsMap prepaymentsMap roiMap).
Local Abbreviation openingBalance := (openingBalance P).
Local Abbreviation emiInEffect := (emiInEffect P roiStart originalTenure).

(** The closing balance of a row in one formula. *)
Lemma Emitted_balance (rows : list ScheduleRow.t) (i : nat)
    (row : ScheduleRow.t) :
  Emitted rows i row ->
  (i < length rows)%nat ->
  ScheduleRow.balance row
  = Rmax 0 (openingBalance rows i - ScheduleRow.principal row
            + ScheduleRow.disbursement row - ScheduleRow.prepayment row).
Proof.
  intros Hem Hi.
  destruct (Emitted_facts _ _ _ _ _ _ _ _ _ Hem Hi)
    as (Hpos & _ & _ & _ & Hpr & Hd & Hp & _ & Hbal).
  assert (Hc : 0 <= ScheduleRow.principal row <= openingBalance rows i).
  { rewrite Hpr. apply clamp_bounds. lra. }
  rewrite Hbal, Hd, Hp.
  set (d := default 0 (disbursementsMap !! Z.of_nat i)).
  set (p := default 0 (prepaymentsMap !! Z.of_nat i)).
  replace (openingBalance rows i - ScheduleRow.principal row + d - p)
    with (openingBalance rows i - ScheduleRow.principal row + (d - p)) by lra.
  destruct (Rltb_spec 0 (d - p)); [rewrite Rmax_right; lra |].
  destruct (Rltb_spec (d - p) 0); [reflexivity |].
  rewrite Rmax_right; lra.
Qed.

(** X10. In the schedule of [applyUserChanges], every row but the last closes
    with a balance above the payoff threshold 0.0001: the table never
    shows a paid-off loan followed by further months. *)
Theorem only_last_row_pays_off (i : nat) (row : ScheduleRow.t) :
  currentSchedule applyUserChanges !! i = Some row ->
  (S i < length (currentSchedule applyUserChanges))%nat ->
  0.0001 < ScheduleRow.balance row.
Proof.
  rewrite currentSchedule_walk. intros Hi Hlen.
  destruct (lookup_lt_is_Some_2 (schedule walk) (S i) Hlen) as [next Hnext].
  destruct (Emitted_facts _ _ _ _ _ _ _ _ _
              (walk_rows _ _ _ _ _ _ _ _ Hnext) Hlen) as (Hpos & _).
  change (openingBalance (schedule walk) (S i))
    with (from_option ScheduleRow.balance 0 (schedule walk !! i)) in Hpos.
  rewrite Hi in Hpos. exact Hpos.
Qed.

Lemma ledger_snoc (rows : list ScheduleRow.t) (row : ScheduleRow.t) :
  ledger P (rows ++ [row])
  = ledger P rows - ScheduleRow.principal row
    + ScheduleRow.disbursement row - ScheduleRow.prepayment row.
Proof. unfold ledger. rewrite !sumOver_snoc. lra. Qed.

Lemma walk_opening_ledger (i : nat) :
  (i < length (schedule walk))%nat ->
  openingBalance (schedule walk) i = ledger P (take i (schedule walk)).
Proof.
  induction i as [| j IH]; intros Hi.
  - unfold ledger. simpl. lra.
  - destruct (lookup_lt_is_Some_2 (schedule walk) j ltac:(lia)) as [prev Hprev].
    pose proof (walk_rows _ _ _ _ _ _ _ _ Hprev) as Hem.
    pose proof (Emitted_balance _ _ _ Hem ltac:(lia)) as Hb.
    destruct (lookup_lt_is_Some_2 (schedule walk) (S j) Hi) as [row Hrow].
    destruct (Emitted_facts _ _ _ _ _ _ _ _ _
                (walk_rows _ _ _ _ _ _ _ _ Hrow) Hi) as (Hpos & _).
    change (openingBalance (schedule walk) (S j))
      with (from_option ScheduleRow.balance 0 (schedule walk !! j)) in *.
    rewrite Hprev in *. simpl in *.
    rewrite (take_S_r _ _ _ Hprev), ledger_snoc, <- IH by lia.
    rewrite Hb in Hpos |- *.
    unfold Rmax in *. destruct (Rle_dec 0 _); lra.
Qed.

(** X11. In the schedule of [applyUserChanges], the balance of every row is the
    loan amount, less the principal parts and the prepayments and plus
    the disbursements of the rows up to it, or 0 when that is negative. *)
Theorem schedule_ledger (i : nat) (row : ScheduleRow.t) :
  currentSchedule applyUserChanges !! i = Some row ->
  ScheduleRow.balance row
  = Rmax 0 (ledger P (take (S i) (currentSchedule applyUserChanges))).
Proof.
  rewrite currentSchedule_walk. intros Hi.
  pose proof (lookup_lt_Some _ _ _ Hi) as Hlt.
  rewrite (Emitted_balance _ _ _ (walk_rows _ _ _ _ _ _ _ _ Hi) Hlt).
  rewrite (take_S_r _ _ _ Hi), ledger_snoc, walk_opening_ledger by assumption.
  reflexivity.
Qed.

(** X12. In a month whose disbursement does not exceed its prepayment, the EMI
    of the row is the EMI in effect before the month: only a net
    disbursement changes the EMI, a prepayment or a rate change alone
    never does. *)
Theorem emi_held_without_net_disbursement (i : nat) (row : ScheduleRow.t) :
  currentSchedule applyUserChanges !! i = Some row ->
  ScheduleRow.disbursement row <= ScheduleRow.prepayment row ->
  ScheduleRow.emi row = emiInEffect (currentSchedule applyUserChanges) i.
Proof.
  rewrite currentSchedule_walk. intros Hi Hnet.
  pose proof (lookup_lt_Some _ _ _ Hi) as Hlt.
  destruct (walk_rows _ _ _ _ _ _ _ _ Hi)
    as (s0 & s1 & stop & [Hh Hg] & Hm & H0 & H1).
  destruct (Head_inv _ _ _ _ _ _ _ _ Hh) as (_ & He & _).
  assert (Hlen : length (schedule s0) = i).
  { rewrite H0, length_take. lia. }
  rewrite Hlen, H0, emiInEffect_take in He.
  destruct (month_inv _ _ _ _ _ _ _ Hm)
    as (row' & Hs & _ & _ & _ & Hd & Hp & _ & Hemi & _).
  rewrite H1, H0 in Hs. apply app_inj_tail in Hs as [_ <-].
  destruct (month_policy _ _ _ _ _ _ _ Hm) as [Hc _].
  rewrite Hemi, Hc, <- Hd, <- Hp, (Rltb_false 0) by lra.
  simpl. exact He.
Qed.
End MoreWalkLemmas.

(** ** The override walk against the baseline *)

Lemma row_ext (r1 r2 : ScheduleRow.t) :
  ScheduleRow.monthIndex r1 = ScheduleRow.monthIndex r2 ->
  ScheduleRow.emi r1 = ScheduleRow.emi r2 ->
  ScheduleRow.interest r1 = ScheduleRow.interest r2 ->
  ScheduleRow.principal r1 = ScheduleRow.principal r2 ->
  ScheduleRow.disbursement r1 = ScheduleRow.disbursement r2 ->
  ScheduleRow.prepayment r1 = ScheduleRow.prepayment r2 ->
  ScheduleRow.roiChange r1 = ScheduleRow.roiChange r2 ->
  ScheduleRow.balance r1 = ScheduleRow.balance r2 ->
  r1 = r2.
Proof. destruct r1, r2. simpl. intros. subst. reflexivity. Qed.

(** One pass of the override walk with empty maps, against one pass of the
    baseline from the same balance. *)
Lemma month_empty_baseline (P annualRate : R) (n i : Z)
    (sb : Baseline.Loop) (sa sa' : Loop) (stop : bool) :
  Baseline.rows sb = schedule sa ->
  Baseline.balance sb = balance sa ->
  monthlyRate sa = Baseline.monthlyRate annualRate ->
  currentEMI sa = Baseline.baselineEMI P annualRate n ->
  month ∅ ∅ ∅ i sa = (sa', stop) ->
  Baseline.rows (Baseline.month P annualRate n i sb) = schedule sa'
  /\ Baseline.balance (Baseline.month P annualRate n i sb) = balance sa'
  /\ monthlyRate sa' = Baseline.monthlyRate annualRate
  /\ currentEMI sa' = Baseline.baselineEMI P annualRate n
  /\ balance sa'
     = balance sa
       - clamp (currentEMI sa - balance sa * monthlyRate sa) 0 (balance sa)
  /\ stop
     = Rltb (Rabs (clamp (currentEMI sa - balance sa * monthlyRate sa) 0
                     (balance sa))) 1e-12
       && Rltb 0.0001 (balance sa').
Proof.
  intros Hrows Hbal Hrate Hemi Hm.
  destruct (baseline_month_inv P annualRate n i sb)
    as (rb & Hb1 & Hb2 & Hb3 & Hb4 & Hb5 & Hb6 & Hb7 & Hb8 & Hb9 & Hb10 & _).
  destruct (month_inv _ _ _ _ _ _ _ Hm)
    as (ra & Ha1 & Ha2 & Ha3 & Ha4 & Ha5 & Ha6 & Ha7 & Ha8 & Ha9 & Ha10
        & Ha11 & _ & Ha13).
  destruct (month_policy _ _ _ _ _ _ _ Hm) as [Hpol _].
  rewrite !lookup_empty in Ha5, Ha6, Ha7, Ha10, Ha13, Hpol.
  simpl in Ha5, Ha6, Ha7, Ha10, Ha13, Hpol.
  replace (0 - 0) with 0 in Ha10, Hpol by lra.
  rewrite (Rltb_false 0 0) in Ha10, Hpol by lra. simpl in Hpol.
  rewrite (Reqb_true 0 0) in Ha13 by reflexivity.
  assert (Hbal' : Baseline.balance (Baseline.month P annualRate n i sb)
                  = balance sa').
  { rewrite Hb10, Ha10, Hb5, Ha4, Hbal, Hrate, Hemi. reflexivity. }
  assert (Hrow : rb = ra).
  { apply row_ext.
    - rewrite Hb2, Ha2. reflexivity.
    - rewrite Hb3, Ha8, Hpol, Hemi. reflexivity.
    - rewrite Hb4, Ha3, Hbal, Hrate. reflexivity.
    - rewrite Hb5, Ha4, Hbal, Hrate, Hemi. reflexivity.
    - rewrite Hb6, Ha5. reflexivity.
    - rewrite Hb7, Ha6. reflexivity.
    - rewrite Hb8, Ha7. reflexivity.
    - rewrite Hb9, Ha9, Hbal'. reflexivity. }
  repeat split.
  - rewrite Hb1, Ha1, Hrows, Hrow. reflexivity.
  - exact Hbal'.
  - rewrite Ha11. exact Hrate.
  - rewrite Hpol. exact Hemi.
  - rewrite Ha10, Ha4. reflexivity.
  - rewrite Ha13, Ha4, !andb_true_r. reflexivity.
Qed.


Lemma agree_shorter (l e : list ScheduleRow.t) : agree l (l ++ e).
Proof.
  intros k ra rb Ha Hb.
  rewrite lookup_app_l in Hb by (apply lookup_lt_Some in Ha; assumption).
  congruence.
Qed.

Lemma agree_longer (l e : list ScheduleRow.t) : agree (l ++ e) l.
Proof.
  intros k ra rb Ha Hb.
  rewrite lookup_app_l in Ha by (apply lookup_lt_Some in Hb; assumption).
  congruence.
Qed.

Lemma for_loop_extends (dm pm rm : gmap Z R) (fuel : nat) (i : Z) (s : Loop) :
  exists extra : list ScheduleRow.t,
    schedule (for_loop dm pm rm fuel i s) = schedule s ++ extra.
Proof.
  revert i s. induction fuel as [| fuel IH]; intros i s.
  - exists []. rewrite app_nil_r. reflexivity.
  - rewrite for_loop_S. destruct (guard i s).
    + destruct (month dm pm rm i s) as [s' stop] eqn:Hm.
      destruct (month_inv _ _ _ _ _ _ _ Hm) as (row & Hs & _).
      destruct stop.
      * exists [row]. exact Hs.
      * destruct (IH (i + 1)%Z s') as (extra & He).
        exists (row :: extra). rewrite He, Hs, <- app_assoc. reflexivity.
    + exists []. rewrite app_nil_r. reflexivity.
Qed.

Lemma baseline_for_loop_extends (P annualRate : R) (n : Z) (fuel : nat)
    (i : Z) (s : Baseline.Loop) :
  exists extra : list ScheduleRow.t,
    Baseline.rows (Baseline.for_loop P annualRate n fuel i s)
    = Baseline.rows s ++ extra.
Proof.
  revert i s. induction fuel as [| fuel IH]; intros i s.
  - exists []. rewrite app_nil_r. reflexivity.
  - rewrite baseline_for_loop_S. destruct (i <=? n)%Z.
    + destruct (baseline_month_inv P annualRate n i s) as (row & Hs & _).
      destruct (Rleb _ 0.0001).
      * exists [row]. exact Hs.
      * destruct (IH (i + 1)%Z (Baseline.month P annualRate n i s))
          as (extra & He).
        exists (row :: extra). rewrite He, Hs, <- app_assoc. reflexivity.
    + exists []. rewrite app_nil_r. reflexivity.
Qed.

(** The two loops in lockstep from states that agree. *)
Lemma agreement_prefix (P annualRate : R) (n : Z) :
  forall (fuela fuelb : nat) (i : Z) (sb : Baseline.Loop) (sa : Loop),
    Baseline.rows sb = schedule sa ->
    Baseline.balance sb = balance sa ->
    monthlyRate sa = Baseline.monthlyRate annualRate ->
    currentEMI sa = Baseline.baselineEMI P annualRate n ->
    agree (schedule (for_loop ∅ ∅ ∅ fuela i sa))
          (Baseline.rows (Baseline.for_loop P annualRate n fuelb i sb)).
Proof.
  induction fuela as [| fuela IH]; intros fuelb i sb sa Hrows Hbal Hmr Hemi.
  - destruct (baseline_for_loop_extends P annualRate n fuelb i sb)
      as (eb & ->).
    simpl. rewrite Hrows. apply agree_shorter.
  - destruct fuelb as [| fuelb].
    { destruct (for_loop_extends ∅ ∅ ∅ (S fuela) i sa) as (ea & ->).
      simpl. rewrite Hrows. apply agree_longer. }
    rewrite for_loop_S, baseline_for_loop_S.
    destruct (guard i sa) eqn:Hg.
    2:{ match goal with
        | |- agree _ (Baseline.rows ?x) =>
            assert (He : exists eb, Baseline.rows x = Baseline.rows sb ++ eb)
        end.
        { destruct (i <=? n)%Z.
          - destruct (baseline_month_inv P annualRate n i sb)
              as (row & Hs & _).
            destruct (Rleb _ 0.0001).
            + exists [row]. exact Hs.
            + destruct (baseline_for_loop_extends P annualRate n fuelb
                          (i + 1) (Baseline.month P annualRate n i sb))
                as (extra & He).
              exists (row :: extra). rewrite He, Hs, <- app_assoc.
              reflexivity.
          - exists []. rewrite app_nil_r. reflexivity. }
        destruct He as (eb & ->).
        rewrite Hrows. apply agree_shorter. }
    destruct (month ∅ ∅ ∅ i sa) as [sa' stop] eqn:Hm.
    destruct (i <=? n)%Z.
    2:{ match goal with
        | |- agree (schedule ?x) _ =>
            assert (He : exists ea, schedule x = schedule sa ++ ea)
        end.
        { destruct (month_inv _ _ _ _ _ _ _ Hm) as (row & Hs & _).
          destruct stop.
          - exists [row]. exact Hs.
          - destruct (for_loop_extends ∅ ∅ ∅ fuela (i + 1) sa')
              as (extra & He).
            exists (row :: extra). rewrite He, Hs, <- app_assoc.
            reflexivity. }
        destruct He as (ea & ->).
        rewrite Hrows. apply agree_longer. }
    destruct (month_empty_baseline P annualRate n i sb sa sa' stop
                Hrows Hbal Hmr Hemi Hm)
      as (Hrows' & Hbal' & Hmr' & Hemi' & _ & _).
    destruct stop.
    + destruct (Rleb _ 0.0001).
      * rewrite Hrows'. intros k ra rb Ha Hb. congruence.
      * destruct (baseline_for_loop_extends P annualRate n fuelb (i + 1)
                    (Baseline.month P annualRate n i sb)) as (eb & ->).
        rewrite Hrows'. apply agree_shorter.
    + destruct (Rleb _ 0.0001).
      * destruct (for_loop_extends ∅ ∅ ∅ fuela (i + 1) sa') as (ea & ->).
        rewrite Hrows'. apply agree_longer.
      * apply IH; assumption.
Qed.

(** X15. With an empty table, every row [applyUserChanges] writes is the
    row [generateBaseline] writes for the same month, wherever the baseline
    has that row: the two schedules agree on their common months and can
    differ in length only. *)
Theorem empty_table_rows_follow_baseline (P annualRate : R) (n : Z)
    (i : nat) (rb : ScheduleRow.t) :
  Baseline.rows (Baseline.generateBaseline P annualRate n) !! i = Some rb ->
  (i < length (currentSchedule (applyUserChanges P annualRate n ∅ ∅ ∅)))%nat ->
  currentSchedule (applyUserChanges P annualRate n ∅ ∅ ∅) !! i = Some rb.
Proof.
  intros Hb Hi.
  destruct (lookup_lt_is_Some_2 _ _ Hi) as [ra Ha].
  rewrite Ha. f_equal.
  rewrite currentSchedule_walk in Ha.
  destruct (Z.le_gt_cases n 0) as [Hn | Hn].
  - unfold Baseline.generateBaseline in Hb.
    rewrite Z2Nat.nonpos in Hb by assumption. discriminate.
  - revert Ha Hb. unfold walk, Baseline.generateBaseline.
    apply agreement_prefix; try reflexivity.
    simpl. unfold initialEMI. rewrite Z.max_r by lia. reflexivity.
Qed.

Lemma foldl_sumOver (f : ScheduleRow.t -> R) (rows : list ScheduleRow.t) :
  foldl (fun s r => s + f r) 0 rows = sumOver f rows.
Proof.
  induction rows as [| row rows IH] using rev_ind; [reflexivity |].
  rewrite foldl_app, sumOver_snoc, IH. reflexivity.
Qed.

Lemma sumOver_le (f g : ScheduleRow.t -> R) (rows : list ScheduleRow.t) :
  Forall (fun row => f row <= g row) rows ->
  sumOver f rows <= sumOver g rows.
Proof.
  induction 1 as [| row rows Hrow _ IH]; simpl; [lra |].
  unfold sumOver in *. simpl. lra.
Qed.

Lemma sumOver_ext (f g : ScheduleRow.t -> R) (rows : list ScheduleRow.t) :
  Forall (fun row => f row = g row) rows ->
  sumOver f rows = sumOver g rows.
Proof.
  induction 1 as [| row rows Hrow _ IH]; simpl; [reflexivity |].
  unfold sumOver in *. simpl. lra.
Qed.

Lemma generateSummaryReport_Some (tenure : Z) (rows : list ScheduleRow.t)
    (rep : SummaryReport) :
  generateSummaryReport tenure rows = Some rep ->
  rows <> []
  /\ actualCompletion rep = length rows
  /\ totalInterestPaid rep = sumOver ScheduleRow.interest rows
  /\ reportTotalDisbursements rep = sumOver ScheduleRow.disbursement rows
  /\ totalPrepayments rep = sumOver ScheduleRow.prepayment rows.
Proof.
  unfold generateSummaryReport.
  destruct rows as [| firstMonth rest]; [discriminate |].
  intros Hrep. apply (inj Some) in Hrep. subst rep.
  cbn [actualCompletion totalInterestPaid reportTotalDisbursements
       totalPrepayments].
  rewrite !foldl_sumOver. repeat split. discriminate.
Qed.

Lemma month_totalInterest (dm pm rm : gmap Z R) (monthCount : Z)
    (s s' : Loop) (stop : bool) :
  month dm pm rm monthCount s = (s', stop) ->
  totalInterest s = sumOver ScheduleRow.interest (schedule s) ->
  totalInterest s' = sumOver ScheduleRow.interest (schedule s').
Proof.
  intros Hm Hs. unfold month in Hm. injection Hm as <- _. simpl.
  rewrite sumOver_snoc, Hs. reflexivity.
Qed.

Section FinalLemmas.
Variables (P roiStart : R) (originalTenure : Z).
Variables (disbursementsMap prepaymentsMap roiMap : gmap Z R).

Local Abbreviation month := (month disbursementsMap prepaymentsMap roiMap).
Local Abbreviation Head :=
  (Head P roiStart originalTenure disbursementsMap prepaymentsMap roiMap).
Local Abbreviation Final :=
  (Final P roiStart originalTenure disbursementsMap prepaymentsMap roiMap).
Local Abbreviation walk :=
  (walk P roiStart originalTenure disbursementsMap prepaymentsMap roiMap).
Local Abbreviation rateInEffect := (rateInEffect roiStart roiMap).
Local Abbreviation applyUserChanges :=
  (applyUserChanges P roiStart originalTenure
     disbursementsMap prepaymentsMap roiMap).
Local Abbreviation emiInEffect := (emiInEffect P roiStart originalTenure).

(** When the loop is left, the EMI and the rate are the ones the last row
    left behind, and the interest total is the sum over the rows. *)
Lemma Final_inv (s : Loop) :
  Final s ->
  currentEMI s = emiInEffect (schedule s) (length (schedule s))
  /\ monthlyRate s = rateInEffect (length (schedule s)).
Proof.
  intros [mc s0 Hh Hg | mc s0 s' [Hh Hg] Hm].
  - destruct (Head_inv _ _ _ _ _ _ _ _ Hh) as (_ & He & Hr). auto.
  - destruct (Head_inv _ _ _ _ _ _ _ _ Hh) as (_ & _ & Hr).
    destruct (Head_length _ _ _ _ _ _ _ _ Hh) as [_ Hlen].
    destruct (month_inv _ _ _ _ _ _ _ Hm)
      as (row & Hs & _ & _ & _ & _ & _ & _ & He & _ & _ & Hrate & _).
    rewrite Hs, length_app, Nat.add_1_r. simpl.
    rewrite list_lookup_middle by reflexivity. simpl.
    split; [auto |].
    rewrite Hrate. replace (mc - 1)%Z with (Z.of_nat (length (schedule s0))).
    rewrite Hr. reflexivity.
Qed.

Lemma Head_totalInterest (monthCount : Z) (s : Loop) :
  Head monthCount s ->
  totalInterest s = sumOver ScheduleRow.interest (schedule s).
Proof.
  induction 1 as [| mc s s' Hh IH Hg Hm]; [reflexivity |].
  eapply month_totalInterest; eassumption.
Qed.


Lemma latestRoiChange_rate (rows : list ScheduleRow.t) :
  (forall (i : nat) (row : ScheduleRow.t),
      rows !! i = Some row ->
      ScheduleRow.roiChange row = roiMap !! Z.of_nat i) ->
  latestRoiChange (reverse rows) roiStart / 12 / 100
  = rateInEffect (length rows).
Proof.
  induction rows as [| row rows IH] using rev_ind; intros Hrows.
  - reflexivity.
  - rewrite reverse_snoc, length_app, Nat.add_1_r. simpl.
    rewrite (Hrows (length rows) row)
      by (apply list_lookup_middle; reflexivity).
    destruct (roiMap !! Z.of_nat (length rows)); [reflexivity |].
    apply IH. intros i r Hi. apply Hrows.
    apply lookup_app_l_Some. assumption.
Qed.

(** X17. For a schedule that is not empty, the stats bar shows the state the
    walk of [applyUserChanges] ended in: its EMI is the last EMI of the
    walk, its rate (as a monthly fraction) the last monthly rate, and its
    months the number of rows. *)
Theorem statsBar_shows_final_state :
  currentSchedule applyUserChanges <> [] ->
  monthlyEMI (updateStatsBar roiStart (currentSchedule applyUserChanges))
  = currentEMI walk
  /\ currentRoi (updateStatsBar roiStart (currentSchedule applyUserChanges))
       / 12 / 100
     = monthlyRate walk
  /\ monthsRemaining
       (updateStatsBar roiStart (currentSchedule applyUserChanges))
     = completionMonthIndex applyUserChanges.
Proof.
  rewrite currentSchedule_walk. intros Hne.
  change (completionMonthIndex applyUserChanges)
    with (length (schedule walk)).
  pose proof (walk_Final P roiStart originalTenure
                disbursementsMap prepaymentsMap roiMap) as Hf.
  destruct (Final_inv _ Hf) as [He Hr].
  assert (Hroi : forall (i : nat) (row : ScheduleRow.t),
             schedule walk !! i = Some row ->
             ScheduleRow.roiChange row = roiMap !! Z.of_nat i).
  { intros i row Hi.
    destruct (Emitted_facts _ _ _ _ _ _ _ _ _
                (walk_rows _ _ _ _ _ _ _ _ Hi) (lookup_lt_Some _ _ _ Hi))
      as (_ & _ & _ & _ & _ & _ & _ & Hroi & _).
    exact Hroi. }
  pose proof (latestRoiChange_rate _ Hroi) as Hlatest.
  rewrite <- Hr in Hlatest.
  destruct (schedule walk) as [| firstMonth rest] eqn:Hs; [contradiction |].
  unfold updateStatsBar.
  cbn [monthlyEMI currentRoi monthsRemaining].
  split; [| split; [exact Hlatest | reflexivity]].
  rewrite He.
  destruct (exists_last (l := firstMonth :: rest) ltac:(discriminate))
    as (init & lastMonth & Heq).
  rewrite Heq, last_last, length_app, Nat.add_1_r. simpl.
  rewrite list_lookup_middle by reflexivity. reflexivity.
Qed.

(** X18. With amounts that are not negative, the disbursement total of the
    summary report is at least the total [applyUserChanges] shows, and
    equal to it when nothing is prepaid; the interest total and the
    completion month of the report are those of [applyUserChanges]. *)
Theorem report_counts_every_disbursement (rep : SummaryReport) :
  (forall (k : Z) (v : R), disbursementsMap !! k = Some v -> 0 <= v) ->
  (forall (k : Z) (v : R), prepaymentsMap !! k = Some v -> 0 <= v) ->
  generateSummaryReport originalTenure (currentSchedule applyUserChanges)
    = Some rep ->
  shownTotalDisbursements applyUserChanges <= reportTotalDisbursements rep
  /\ ((forall k : Z, prepaymentsMap !! k = None) ->
      shownTotalDisbursements applyUserChanges
      = reportTotalDisbursements rep)
  /\ totalInterestPaid rep = newTotalInterest applyUserChanges
  /\ actualCompletion rep = completionMonthIndex applyUserChanges.
Proof.
  intros Hd Hp.
  change (shownTotalDisbursements applyUserChanges)
    with (totalDisbursements walk).
  change (newTotalInterest applyUserChanges)
    with (foldl (fun acc r => acc + ScheduleRow.interest r) 0
            (schedule walk)).
  change (completionMonthIndex applyUserChanges)
    with (length (schedule walk)).
  rewrite currentSchedule_walk.
  rewrite (Final_totalDisbursements _ _ _ _ _ _ _
             (walk_Final P roiStart originalTenure
                disbursementsMap prepaymentsMap roiMap)).
  assert (Hrows : forall (i : nat) (row : ScheduleRow.t),
             schedule walk !! i = Some row ->
             ScheduleRow.disbursement row
               = default 0 (disbursementsMap !! Z.of_nat i)
             /\ ScheduleRow.prepayment row
                = default 0 (prepaymentsMap !! Z.of_nat i)).
  { intros i row Hi.
    destruct (Emitted_facts _ _ _ _ _ _ _ _ _
                (walk_rows _ _ _ _ _ _ _ _ Hi) (lookup_lt_Some _ _ _ Hi))
      as (_ & _ & _ & _ & _ & Hdr & Hpr & _).
    auto. }
  assert (Hnn : forall (m : gmap Z R) (k : Z),
             (forall (j : Z) (v : R), m !! j = Some v -> 0 <= v) ->
             0 <= default 0 (m !! k)).
  { intros m k Hm. destruct (m !! k) as [v |] eqn:Hv; simpl; [| lra].
    eapply Hm. exact Hv. }
  intros Hrep.
  destruct (generateSummaryReport_Some _ _ _ Hrep)
    as (_ & -> & -> & -> & _).
  rewrite foldl_sumOver.
  split; [| split; [| split; reflexivity]].
  - apply sumOver_le. apply Forall_lookup. intros i row Hi.
    destruct (Hrows i row Hi) as [Hdr Hpr].
    unfold countedDisbursement. rewrite Hdr.
    pose proof (Hnn disbursementsMap (Z.of_nat i) Hd).
    destruct (Rltb _ _); lra.
  - intros Hnone. apply sumOver_ext. apply Forall_lookup. intros i row Hi.
    destruct (Hrows i row Hi) as [Hdr Hpr].
    unfold countedDisbursement. rewrite Hdr, Hpr, Hnone. simpl.
    pose proof (Hnn disbursementsMap (Z.of_nat i) Hd).
    destruct (Rltb_spec 0 (default 0 (disbursementsMap !! Z.of_nat i) - 0));
      lra.
Qed.

End FinalLemmas.

Lemma rateInEffect_zero (roiMap : gmap Z R) (i : nat) :
  (forall (k : Z) (v : R), roiMap !! k = Some v -> v = 0) ->
  rateInEffect 0 roiMap i = 0.
Proof.
  intros Hz. induction i as [| j IH]; simpl.
  - unfold initialMonthlyRate. lra.
  - destruct (roiMap !! Z.of_nat j) as [v |] eqn:Hv; [| assumption].
    rewrite (Hz _ _ Hv). lra.
Qed.


(** ** Reading the table *)
Lemma foldl_setAmount_inv (inputs : list (Z * R)) (m : gmap Z R) (k : Z)
    (v : R) :
  foldl setAmount m inputs !! k = Some v ->
  m !! k = Some v \/ ((k, v) ∈ inputs /\ 0 < v).
Proof.
  revert m. induction inputs as [| [idx w] inputs IH]; intros m Hk; simpl in *.
  - auto.
  - destruct (IH _ Hk) as [Hm | [Hin Hv]].
    + unfold setAmount in Hm. simpl in Hm.
      destruct (Rltb_spec 0 w) as [Hw | Hw]; [| auto].
      destruct (decide (idx = k)) as [-> | Hne].
      * rewrite lookup_insert_eq in Hm. injection Hm as <-.
        right. split; [apply list_elem_of_here | assumption].
      * rewrite lookup_insert_ne in Hm by assumption. auto.
    + right. split; [apply list_elem_of_further |]; assumption.
Qed.

Lemma readAmounts_only_positive (inputs : list (Z * R)) (k : Z) (v : R) :
  readAmounts inputs !! k = Some v -> (k, v) ∈ inputs /\ 0 < v.
Proof.
  intros Hk. destruct (foldl_setAmount_inv _ _ _ _ Hk) as [He | H]; [| exact H].
  rewrite lookup_empty in He. discriminate.
Qed.

Lemma foldl_setAmount_notin (inputs : list (Z * R)) (m : gmap Z R) (k : Z) :
  (forall v : R, (k, v) ∈ inputs -> v <= 0) ->
  foldl setAmount m inputs !! k = m !! k.
Proof.
  revert m. induction inputs as [| [idx w] inputs IH]; intros m Hk; simpl.
  - reflexivity.
  - rewrite IH by (intros v Hv; apply Hk, list_elem_of_further, Hv).
    unfold setAmount. simpl.
    destruct (Rltb_spec 0 w) as [Hw | Hw]; [| reflexivity].
    destruct (decide (idx = k)) as [-> | Hne].
    + specialize (Hk w (list_elem_of_here _ _)). lra.
    + apply lookup_insert_ne. assumption.
Qed.

(** X20. Reading the disbursement (or prepayment) inputs of the table, with one
    input per index: the map holds value [v] at index [k] exactly when an
    input with that index holds [v] and [v] is positive. *)
Theorem readAmounts_lookup (inputs : list (Z * R)) (k : Z) (v : R) :
  NoDup (inputs.*1) ->
  readAmounts inputs !! k = Some v <-> (k, v) ∈ inputs /\ 0 < v.
Proof.
  intros Hnd. split; [apply readAmounts_only_positive |].
  intros [Hin Hv]. unfold readAmounts.
  generalize (∅ : gmap Z R) as m.
  induction inputs as [| [idx w] inputs IH]; intros m;
    [apply elem_of_nil in Hin; contradiction |].
  simpl in Hnd. apply NoDup_cons in Hnd as [Hnotin Hnd'].
  apply elem_of_cons in Hin as [Heq | Hin].
  - injection Heq as <- <-. simpl.
    rewrite foldl_setAmount_notin.
    + unfold setAmount. simpl. rewrite Rltb_true by assumption.
      apply lookup_insert_eq.
    + intros u Hu. exfalso. apply Hnotin.
      apply list_elem_of_fmap. exists (k, u). auto.
  - simpl. apply IH; assumption.
Qed.

Lemma foldl_setRate_inv (inputs : list (Z * option R)) (m : gmap Z R)
    (k : Z) (v : R) :
  foldl setRate m inputs !! k = Some v ->
  m !! k = Some v \/ ((k, Some v) ∈ inputs /\ 0 <= v).
Proof.
  revert m. induction inputs as [| [idx w] inputs IH]; intros m Hk; simpl in *.
  - auto.
  - destruct (IH _ Hk) as [Hm | [Hin Hv]].
    + unfold setRate in Hm. simpl in Hm.
      destruct w as [w |]; [| auto].
      destruct (Rleb_spec 0 w) as [Hw | Hw]; [| auto].
      destruct (decide (idx = k)) as [-> | Hne].
      * rewrite lookup_insert_eq in Hm. injection Hm as <-.
        right. split; [apply list_elem_of_here | assumption].
      * rewrite lookup_insert_ne in Hm by assumption. auto.
    + right. split; [apply list_elem_of_further |]; assumption.
Qed.

Lemma readRates_only_nonnegative (inputs : list (Z * option R)) (k : Z)
    (v : R) :
  readRates inputs !! k = Some v -> (k, Some v) ∈ inputs /\ 0 <= v.
Proof.
  intros Hk. destruct (foldl_setRate_inv _ _ _ _ Hk) as [He | H]; [| exact H].
  rewrite lookup_empty in He. discriminate.
Qed.

(** X21. Whatever the inputs of the table hold, with a starting rate that is
    not negative, no row of [applyUserChanges] has a negative interest,
    disbursement, prepayment, principal part or balance: negative and
    unreadable entries are dropped when the table is read. *)
Theorem table_schedule_bounded (P roiStart : R) (originalTenure : Z)
    (disbursementInputs prepayInputs : list (Z * R))
    (roiInputs : list (Z * option R)) (i : nat) (row : ScheduleRow.t) :
  0 <= roiStart ->
  currentSchedule
    (applyUserChangesFromTable P roiStart originalTenure
       disbursementInputs prepayInputs roiInputs) !! i = Some row ->
  0 <= ScheduleRow.interest row
  /\ 0 <= ScheduleRow.disbursement row
  /\ 0 <= ScheduleRow.prepayment row
  /\ 0 <= ScheduleRow.principal row
  /\ 0 <= ScheduleRow.balance row.
Proof.
  unfold applyUserChangesFromTable. rewrite currentSchedule_walk.
  intros Hr Hi.
  destruct (Emitted_facts _ _ _ _ _ _ _ _ _
              (walk_rows _ _ _ _ _ _ _ _ Hi) (lookup_lt_Some _ _ _ Hi))
    as (Hpos & _ & _ & Hint & Hpr & Hd & Hp & _ & Hbal).
  assert (Hrate : 0 <= rateInEffect roiStart (readRates roiInputs) i).
  { apply rateInEffect_nonneg; [assumption |].
    intros k v Hk. apply readRates_only_nonnegative in Hk. tauto. }
  assert (Hamt : forall (l : list (Z * R)) (k : Z),
             0 <= default 0 (readAmounts l !! k)).
  { intros l k. destruct (readAmounts l !! k) as [v |] eqn:Hv; simpl; [| lra].
    apply readAmounts_only_positive in Hv. lra. }
  assert (Hc : 0 <= ScheduleRow.principal row
               <= openingBalance P
                    (schedule (walk P roiStart originalTenure
                       (readAmounts disbursementInputs)
                       (readAmounts prepayInputs) (readRates roiInputs))) i).
  { rewrite Hpr. apply clamp_bounds. lra. }
  repeat split.
  - rewrite Hint. apply Rmult_le_pos; lra.
  - rewrite Hd. apply Hamt.
  - rewrite Hp. apply Hamt.
  - lra.
  - rewrite Hbal.
    match goal with
    | |- context [Rltb 0 ?x] => destruct (Rltb_spec 0 x); [lra |]
    end.
    destruct (Rltb _ 0); [apply Rmax_l | lra].
Qed.

(** ** Amount in words *)
Section WordsLemmas.
Local Open Scope string_scope.

Lemma string_append_assoc (x y z : String.string) :
  String.append (String.append x y) z = String.append x (String.append y z).
Proof.
  induction x as [| c x IH]; [reflexivity |].
  change (String.String c (String.append (String.append x y) z)
          = String.String c (String.append x (String.append y z))).
  rewrite IH. reflexivity.
Qed.

Lemma string_append_nil_r (x : String.string) :
  String.append x String.EmptyString = x.
Proof.
  induction x as [| c x IH]; [reflexivity |].
  change (String.String c (String.append x String.EmptyString)
          = String.String c x).
  rewrite IH. reflexivity.
Qed.

Lemma tokensFrom_space (x y word : String.string) :
  Words.tokensFrom
    (String.append x (String.String (Ascii.ascii_of_nat 32) y)) word
  = Words.tokensFrom x word ++ Words.tokens y.
Proof.
  revert word. induction x as [| c x IH]; intros word.
  - simpl. destruct word; reflexivity.
  - simpl. destruct (Words.isWhiteSpace c).
    + destruct word; rewrite IH; reflexivity.
    + apply IH.
Qed.

Lemma tokens_trimStart (s : String.string) :
  Words.tokens (Words.trimStart s) = Words.tokens s.
Proof.
  unfold Words.tokens. induction s as [| c s IH]; [reflexivity |].
  simpl. destruct (Words.isWhiteSpace c) eqn:Hc; [exact IH |].
  simpl. rewrite Hc. reflexivity.
Qed.

Lemma tokensFrom_trimEnd (s word : String.string) :
  Words.tokensFrom (Words.trimEnd s) word = Words.tokensFrom s word.
Proof.
  revert word. induction s as [| c s IH]; intros word; [reflexivity |].
  simpl. destruct (Words.trimEnd s) as [| k kept] eqn:Hk.
  - destruct (Words.isWhiteSpace c) eqn:Hc.
    + simpl. destruct word; rewrite <- IH; reflexivity.
    + simpl. rewrite Hc, <- IH. reflexivity.
  - simpl. destruct (Words.isWhiteSpace c).
    + destruct word; rewrite <- IH; reflexivity.
    + rewrite <- IH. reflexivity.
Qed.

Lemma tokens_trim (s : String.string) :
  Words.tokens (Words.trim s) = Words.tokens s.
Proof.
  unfold Words.trim, Words.tokens at 1.
  rewrite tokensFrom_trimEnd. apply tokens_trimStart.
Qed.

Lemma tokens_closed_append (s y : String.string) :
  Words.closedString s ->
  Words.tokens (String.append s y) = Words.tokens s ++ Words.tokens y.
Proof.
  intros [-> | [s' ->]]; [reflexivity |].
  rewrite string_append_assoc. unfold Words.tokens at 1 2.
  change (String.append " " y)
    with (String.String (Ascii.ascii_of_nat 32) y).
  change " "
    with (String.String (Ascii.ascii_of_nat 32) String.EmptyString).
  rewrite !tokensFrom_space, app_nil_r. reflexivity.
Qed.

(** One [if (k) str += inWords(k) + suffix] of the source, with
    [suffix = " " + w + " "]. *)
Lemma tokens_piece (s : String.string) (k : N) (w suffix : String.string) :
  Words.closedString s ->
  suffix = String.String (Ascii.ascii_of_nat 32) (String.append w " ") ->
  Words.tokens w = [w] ->
  Words.closedString
    (if (k =? 0)%N then s
     else String.append s (String.append (Words.inWords k) suffix))
  /\ Words.tokens
       (if (k =? 0)%N then s
        else String.append s (String.append (Words.inWords k) suffix))
     = Words.tokens s
       ++ (if (k =? 0)%N then [] else Words.tokens (Words.inWords k) ++ [w]).
Proof.
  intros Hs -> Hw. destruct (k =? 0)%N.
  - split; [assumption | rewrite app_nil_r; reflexivity].
  - split.
    + right.
      exists (String.append s
                (String.append (Words.inWords k)
                   (String.String (Ascii.ascii_of_nat 32) w))).
      rewrite !string_append_assoc. reflexivity.
    + rewrite tokens_closed_append by assumption. f_equal.
      unfold Words.tokens at 1. rewrite tokensFrom_space.
      f_equal.
      change " "
        with (String.String (Ascii.ascii_of_nat 32) String.EmptyString).
      unfold Words.tokens at 1. rewrite tokensFrom_space, app_nil_r.
      exact Hw.
Qed.

Lemma readGroup_readWords (ws rest : list String.string) (t c k : N) :
  Words.readGroup ws c = Some k ->
  Words.readWords (ws ++ rest) t c = Words.readWords rest t k.
Proof.
  revert c. induction ws as [| w ws IH]; intros c Hg; simpl in *.
  - injection Hg as <-. reflexivity.
  - destruct (String.eqb w "Zero"); [discriminate |].
    destruct (String.eqb w "Thousand") eqn:E1.
    { rewrite orb_true_r in Hg. discriminate. }
    destruct (String.eqb w "Lakh") eqn:E2.
    { rewrite orb_true_r in Hg. discriminate. }
    destruct (String.eqb w "Crore") eqn:E3.
    { rewrite orb_true_r in Hg. discriminate. }
    simpl in Hg.
    destruct (String.eqb w "Hundred"); [apply IH; assumption |].
    destruct (Words.wordValue w); [apply IH; assumption | discriminate].
Qed.

Lemma eqTokens_eq (l1 l2 : list String.string) :
  Words.eqTokens l1 l2 = true -> l1 = l2.
Proof.
  revert l2. induction l1 as [| x l1 IH]; intros [| y l2] H; simpl in H;
    try discriminate; [reflexivity |].
  apply andb_true_iff in H as [Hx Hl].
  apply String.eqb_eq in Hx. rewrite Hx, (IH _ Hl). reflexivity.
Qed.

Lemma checkGroup_all :
  forallb Words.checkGroup (map N.of_nat (seq 0 1000)) = true.
Proof. vm_compute. reflexivity. Qed.

Lemma checkGroup_below (v : N) : (v < 1000)%N -> Words.checkGroup v = true.
Proof.
  intros Hv.
  pose proof checkGroup_all as Hall.
  rewrite forallb_forall in Hall. apply Hall.
  apply in_map_iff. exists (N.to_nat v). split; [lia |].
  apply in_seq. lia.
Qed.

Lemma group_value (v : N) :
  (v < 1000)%N ->
  Words.readGroup (Words.tokens (Words.inWords v)) 0 = Some v
  /\ Words.tokens (Words.lastGroup v) = Words.tokens (Words.inWords v).
Proof.
  intros Hv. pose proof (checkGroup_below v Hv) as Hc.
  unfold Words.checkGroup in Hc. apply andb_true_iff in Hc as [H1 H2].
  split; [| apply eqTokens_eq; assumption].
  destruct (Words.readGroup _ _) as [k |]; [| discriminate].
  apply N.eqb_eq in H1. rewrite H1. reflexivity.
Qed.

Lemma read_piece (k : N) (w : String.string) (mult : N)
    (rest : list String.string) (t : N) :
  (k < 1000)%N ->
  (forall (t0 c : N) (ws : list String.string),
      Words.readWords (w :: ws) t0 c = Words.readWords ws (t0 + c * mult)%N 0) ->
  Words.readWords
    ((if (k =? 0)%N then [] else Words.tokens (Words.inWords k) ++ [w])
     ++ rest) t 0
  = Words.readWords rest (t + k * mult)%N 0.
Proof.
  intros Hk Hw. destruct (N.eqb_spec k 0) as [-> | Hne].
  - simpl. f_equal. lia.
  - rewrite <- app_assoc.
    rewrite (readGroup_readWords _ _ t 0 k) by (apply group_value; assumption).
    simpl app. apply Hw.
Qed.

Lemma numberToWordsIndian_reads_back (num : N) :
  (num < 10000000000)%N ->
  Words.readAmount (Words.numberToWordsIndian num) = Some num.
Proof.
  intros Hnum. unfold Words.readAmount, Words.numberToWordsIndian.
  destruct (N.eqb_spec num 0) as [-> | Hne]; [reflexivity |].
  cbv zeta.
  set (crore := (num / 10000000)%N).
  set (n1 := (num mod 10000000)%N).
  set (lakh := (n1 / 100000)%N).
  set (n2 := (n1 mod 100000)%N).
  set (thousand := (n2 / 1000)%N).
  set (v := (n2 mod 1000)%N).
  assert (Hn1 : (n1 < 10000000)%N) by (apply N.mod_lt; lia).
  assert (Hn2 : (n2 < 100000)%N) by (apply N.mod_lt; lia).
  assert (Hc : (crore < 1000)%N)
    by (apply N.Div0.div_lt_upper_bound; lia).
  assert (Hl : (lakh < 1000)%N)
    by (apply N.Div0.div_lt_upper_bound; lia).
  assert (Ht : (thousand < 1000)%N)
    by (apply N.Div0.div_lt_upper_bound; lia).
  assert (Hv : (v < 1000)%N) by (apply N.mod_lt; lia).
  rewrite tokens_trim.
  destruct (tokens_piece String.EmptyString crore "Crore"
              " Crore " (or_introl eq_refl) eq_refl eq_refl)
    as [C1 T1].
  set (s1 := if (crore =? 0)%N then String.EmptyString
             else String.append String.EmptyString
                    (String.append (Words.inWords crore) " Crore "))
    in *.
  destruct (tokens_piece s1 lakh "Lakh" " Lakh "
              C1 eq_refl eq_refl) as [C2 T2].
  set (s2 := if (lakh =? 0)%N then s1
             else String.append s1
                    (String.append (Words.inWords lakh) " Lakh "))
    in *.
  destruct (tokens_piece s2 thousand "Thousand" " Thousand "
              C2 eq_refl eq_refl) as [C3 T3].
  set (s3 := if (thousand =? 0)%N then s2
             else String.append s2
                    (String.append (Words.inWords thousand)
                       " Thousand "))
    in *.
  assert (Hlast :
    Words.tokens
      (if (0 <? v mod 100)%N
       then String.append
              (if (v / 100 =? 0)%N then s3
               else String.append s3
                      (String.append (Words.inWords (v / 100))
                         " Hundred "))
              (String.append (Words.inWords (v mod 100)) " ")
       else if (v / 100 =? 0)%N then s3
            else String.append s3
                   (String.append (Words.inWords (v / 100))
                      " Hundred "))
    = Words.tokens s3 ++ Words.tokens (Words.lastGroup v)).
  { unfold Words.lastGroup. cbv zeta.
    destruct (v / 100 =? 0)%N; destruct (0 <? v mod 100)%N.
    - simpl String.append at 3. apply tokens_closed_append. assumption.
    - simpl. rewrite app_nil_r. reflexivity.
    - rewrite string_append_assoc. apply tokens_closed_append. assumption.
    - rewrite string_append_nil_r. apply tokens_closed_append. assumption. }
  rewrite Hlast, T3, T2, T1.
  destruct (group_value v Hv) as [Hread Htok].
  rewrite Htok. simpl app at 1.
  rewrite <- !app_assoc.
  rewrite (read_piece crore "Crore" 10000000) by (assumption || reflexivity).
  rewrite (read_piece lakh "Lakh" 100000) by (assumption || reflexivity).
  rewrite (read_piece thousand "Thousand" 1000) by (assumption || reflexivity).
  rewrite <- (app_nil_r (Words.tokens (Words.inWords v))).
  rewrite (readGroup_readWords _ _ _ 0 v Hread).
  simpl Words.readWords. f_equal.
  pose proof (N.div_mod num 10000000 ltac:(lia)) as E1.
  pose proof (N.div_mod n1 100000 ltac:(lia)) as E2.
  pose proof (N.div_mod n2 1000 ltac:(lia)) as E3.
  fold crore n1 in E1. fold lakh n2 in E2. fold thousand v in E3.
  lia.
Qed.

(** X22. Two different whole amounts below 10^10 (1000 crore) are written with
    different words by [numberToWordsIndian]. *)
Theorem numberToWordsIndian_injective (m n : N) :
  (m < 10000000000)%N -> (n < 10000000000)%N ->
  m <> n ->
  Words.numberToWordsIndian m <> Words.numberToWordsIndian n.
Proof.
  intros Hm Hn Hne Heq. apply Hne.
  pose proof (numberToWordsIndian_reads_back m Hm) as H1.
  pose proof (numberToWordsIndian_reads_back n Hn) as H2.
  rewrite Heq, H2 in H1. injection H1 as <-. reflexivity.
Qed.

(** From 10^10 on the crore count has four digits, [inWords] gives the
    empty string for it, and amounts share their words. *)
Lemma numberToWordsIndian_crore_limit :
  Words.numberToWordsIndian 10000000000
  = Words.numberToWordsIndian 20000000000.
Proof. vm_compute. reflexivity. Qed.

End WordsLemmas.

(** ** Instances of the further properties *)

Lemma calculateEMI_antitone_months_witness :
  calculateEMI 100 1 2 <= calculateEMI 100 1 1.
Proof.
  apply (calculateEMI_antitone_months 100 1 1 2); (lra || lia).
Defined.

Lemma calculateRemainingMonths_100_200_1 :
  calculateRemainingMonths 100 200 1 = Finite (IZR 1).
Proof.
  rewrite <- calculateEMI_100_1_1.
  apply calculateRemainingMonths_inverts; try lra; try lia.
  rewrite calculateEMI_100_1_1. lra.
Qed.

Lemma calculateRemainingMonths_right_inverse_witness :
  (1 <= 1)%Z /\ calculateEMI 100 1 1 = 200.
Proof.
  apply (calculateRemainingMonths_right_inverse 100 200 1 1); try lra.
  exact calculateRemainingMonths_100_200_1.
Defined.

Lemma calculateRemainingMonths_100_50_0 :
  calculateRemainingMonths 100 50 0 = Finite 2.
Proof.
  unfold calculateRemainingMonths.
  rewrite (Rleb_false 100 0), (Rleb_false 50 0), (Reqb_true 0 0) by lra.
  replace (100 / 50) with (IZR 2) by lra.
  rewrite Math_ceil_IZR. reflexivity.
Qed.

Lemma calculateRemainingMonths_antitone_emi_witness :
  exists x2 : R,
    calculateRemainingMonths 100 100 0 = Finite x2 /\ x2 <= 2.
Proof.
  apply (calculateRemainingMonths_antitone_emi 100 50 100 0 2); try lra.
  exact calculateRemainingMonths_100_50_0.
Defined.

Lemma calculateRemainingMonths_zero_rate_witness :
  exists k : Z,
    calculateRemainingMonths 100 50 0 = Finite (IZR k)
    /\ (IZR k - 1) * 50 < 100 <= IZR k * 50.
Proof.
  apply (calculateRemainingMonths_zero_rate 100 50); lra.
Defined.

Lemma late_lookup (i : nat) :
  currentSchedule (applyUserChanges 1000 0 2 Sample.lateDisbursement ∅ ∅) !! i
  = [Sample.row1; Sample.row2; Sample.row3] !! i.
Proof. rewrite late_schedule. reflexivity. Qed.

Lemma only_last_row_pays_off_witness :
  0.0001 < ScheduleRow.balance Sample.row1.
Proof.
  apply (only_last_row_pays_off 1000 0 2 Sample.lateDisbursement ∅ ∅
           0 Sample.row1).
  - rewrite late_lookup. reflexivity.
  - rewrite late_schedule. simpl. lia.
Defined.

Lemma schedule_ledger_witness :
  ScheduleRow.balance Sample.row2
  = Rmax 0
      (ledger 1000
         (take 2
            (currentSchedule
               (applyUserChanges 1000 0 2 Sample.lateDisbursement ∅ ∅)))).
Proof.
  apply (schedule_ledger 1000 0 2 Sample.lateDisbursement ∅ ∅ 1 Sample.row2).
  rewrite late_lookup. reflexivity.
Defined.

Lemma emi_held_without_net_disbursement_witness :
  ScheduleRow.emi Sample.row1
  = emiInEffect 1000 0 2
      (currentSchedule
         (applyUserChanges 1000 0 2 Sample.lateDisbursement ∅ ∅)) 0.
Proof.
  apply (emi_held_without_net_disbursement 1000 0 2
           Sample.lateDisbursement ∅ ∅ 0 Sample.row1).
  - rewrite late_lookup. reflexivity.
  - simpl. lra.
Defined.

Lemma statsBar_shows_final_state_witness :
  monthlyEMI
    (updateStatsBar 0
       (currentSchedule
          (applyUserChanges 1000 0 2 Sample.lateDisbursement ∅ ∅)))
  = currentEMI (walk 1000 0 2 Sample.lateDisbursement ∅ ∅).
Proof.
  apply (statsBar_shows_final_state 1000 0 2 Sample.lateDisbursement ∅ ∅).
  rewrite late_schedule. discriminate.
Defined.

Lemma report_counts_every_disbursement_witness :
  exists rep : SummaryReport,
    generateSummaryReport 2
      (currentSchedule
         (applyUserChanges 1000 0 2 Sample.lateDisbursement ∅ ∅))
    = Some rep
    /\ shownTotalDisbursements
         (applyUserChanges 1000 0 2 Sample.lateDisbursement ∅ ∅)
       <= reportTotalDisbursements rep.
Proof.
  assert (Hne : currentSchedule
                  (applyUserChanges 1000 0 2 Sample.lateDisbursement ∅ ∅)
                <> [])
    by (rewrite late_schedule; discriminate).
  destruct (generateSummaryReport 2
              (currentSchedule
                 (applyUserChanges 1000 0 2 Sample.lateDisbursement ∅ ∅)))
    as [rep |] eqn:Hrep.
  - exists rep. split; [reflexivity |].
    apply (report_counts_every_disbursement 1000 0 2
             Sample.lateDisbursement ∅ ∅ rep).
    + intros k v Hkv. unfold Sample.lateDisbursement in Hkv.
      apply lookup_singleton_Some in Hkv as [_ <-]. lra.
    + intros k v Hkv. rewrite lookup_empty in Hkv. discriminate.
    + exact Hrep.
  - exfalso. unfold generateSummaryReport in Hrep.
    destruct (currentSchedule _); [apply Hne; reflexivity | discriminate].
Defined.


Lemma readAmounts_lookup_witness :
  readAmounts [(0%Z, 100); (1%Z, 0)] !! 0%Z = Some 100
  <-> (0%Z, 100) ∈ [(0%Z, 100); (1%Z, 0)] /\ 0 < 100.
Proof.
  apply (readAmounts_lookup [(0%Z, 100); (1%Z, 0)] 0 100).
  simpl. apply NoDup_cons. split.
  - intros H. apply list_elem_of_singleton in H. discriminate.
  - apply NoDup_singleton.
Defined.

Lemma table_late_schedule :
  currentSchedule
    (applyUserChangesFromTable 1000 0 2 [(1%Z, 500)] [] [])
  = [Sample.row1; Sample.row2; Sample.row3].
Proof.
  unfold applyUserChangesFromTable, readAmounts, readRates. simpl.
  unfold setAmount. simpl. rewrite Rltb_true by lra.
  rewrite insert_empty. apply late_schedule.
Qed.

Lemma table_schedule_bounded_witness :
  0 <= ScheduleRow.interest Sample.row2
  /\ 0 <= ScheduleRow.disbursement Sample.row2
  /\ 0 <= ScheduleRow.prepayment Sample.row2
  /\ 0 <= ScheduleRow.principal Sample.row2
  /\ 0 <= ScheduleRow.balance Sample.row2.
Proof.
  apply (table_schedule_bounded 1000 0 2 [(1%Z, 500)] [] [] 1 Sample.row2).
  - lra.
  - rewrite table_late_schedule. reflexivity.
Defined.

Lemma numberToWordsIndian_injective_witness :
  Words.numberToWordsIndian 100000 <> Words.numberToWordsIndian 1000000.
Proof.
  apply (numberToWordsIndian_injective 100000 1000000);
    [reflexivity | reflexivity | discriminate].
Defined.

Lemma plain_month1 : month ∅ ∅ ∅ 1 Sample.start = (Sample.after1, false).
Proof. unfold Sample.start. month_eval. Qed.

Lemma plain_month2 :
  month ∅ ∅ ∅ 2 Sample.after1 = (Sample.afterPlain2, false).
Proof. unfold Sample.after1. month_eval. Qed.

Lemma plain_schedule :
  currentSchedule (applyUserChanges 1000 0 2 ∅ ∅ ∅)
  = [Sample.row1; Sample.plainRow2].
Proof.
  rewrite currentSchedule_walk. unfold walk. rewrite sample_initialLoop.
  change (Z.to_nat SAFE_MONTH_CAP) with (S (S (S (Z.to_nat 4997)))).
  rewrite for_loop_S, guard_eval_true, plain_month1 by cap_side.
  change (1 + 1)%Z with 2%Z.
  rewrite for_loop_S, guard_eval_true, plain_month2 by cap_side.
  rewrite for_loop_guard_false by (apply guard_eval_false; simpl; lra).
  reflexivity.
Qed.

Lemma plain_baseline :
  Baseline.rows (Baseline.generateBaseline 1000 0 2)
  = [Sample.row1; Sample.plainRow2].
Proof.
  unfold Baseline.generateBaseline. simpl.
  unfold Baseline.month, Baseline.baselineEMI, Baseline.monthlyRate,
    calculateEMI.
  Reval. repeat f_equal; lra.
Qed.

Lemma empty_table_rows_follow_baseline_witness :
  currentSchedule (applyUserChanges 1000 0 2 ∅ ∅ ∅) !! 1%nat
  = Some Sample.plainRow2.
Proof.
  apply (empty_table_rows_follow_baseline 1000 0 2 1 Sample.plainRow2).
  - rewrite plain_baseline. reflexivity.
  - rewrite plain_schedule. simpl. lia.
Defined.
